(** * btc_alt_strategy_rebalancer: market-data acquisition and allocation

    A shallow embedding of the three Python sources of the repository

      - [app.py]             the Streamlit application: [fetch_market_data]
                             (paginated fetch with retries, record
                             validation) and the "Calculate Allocation"
                             block (sort, exclusion filter, top-N, weights);
      - [fetch_coingecko.py] the standalone batch fetch;
      - [fetcher.py]         the CoinPaprika top-50 CSV snapshot script;

    and, of the libraries they call, numpy's indirect quicksort, which
    orders the frame under the default [sort_values]; followed by the
    properties of the specification that concern them.

    Conventions of the embedding.
      - A decoded JSON document is a [json] value; a JSON object is a
        [gmap string json], which is what a Python [dict] with string keys
        is up to iteration order.
      - JSON numbers and pandas numeric columns are exact rationals ([Qc]);
        rounding of IEEE doubles and int64 wrap-around are outside the
        model.
      - The network is a [client]: a function from the history of effects so
        far and the requested page to a [response]. Effects ([requests.get],
        [time.sleep], [st.warning], [st.error]) are appended to a [trace]
        that is threaded through the code.
      - Python [int] parameters [pages], [retries] and [top_n] are [nat]:
        for a negative value [range(1, pages + 1)] is empty and
        [attempt < retries] is false at once, exactly as for 0.
      - The [while] loop takes fuel; [OutOfFuel] is the result of a run that
        was cut short, and the entry points pass enough fuel for it never to
        be returned ([app_fetch_market_data_total],
        [batch_fetch_market_data_total]). *)

From Stdlib Require Import QArith Qcanon Ascii String Sorting.Sorted Sorting.Permutation.
From stdpp Require Import numbers strings gmap fin_maps sorting list.

#[local] Set Warnings "-register-all".

(** ** JSON values *)

Inductive json : Type :=
| JNull
| JBool (b : bool)
| JNum (q : Qc)
| JStr (s : string)
| JArr (xs : list json)
| JObj (kvs : gmap string json).

#[global] Instance json_inhabited : Inhabited json := populate JNull.

(** [v is None] *)
Definition is_None (v : json) : bool :=
  match v with JNull => true | _ => false end.

(** [d.get(key, default)] *)
Definition dict_get (d : gmap string json) (key : string) (default : json) : json :=
  match d !! key with Some v => v | None => default end.

(** [key in d] *)
Definition dict_has (d : gmap string json) (key : string) : bool :=
  bool_decide (is_Some (d !! key)).

(** ** Effects *)

(** What the user interface is told ([st.warning], [st.error]); the
    interpolated values of each f-string are kept, not its text. *)
Inductive ui_message : Type :=
| EmptyFirstPage (page : nat)
| ApiError (page attempt retries : nat)
| FailedAfter (retries : nat)
| NoDataFetched.

Inductive event : Type :=
| Request (page : nat)
| Sleep (seconds : Qc)
| StWarning (m : ui_message)
| StError (m : ui_message).

Abbreviation trace := (list event).

(** The answer to one [requests.get(...)] followed by [raise_for_status()]
    and [.json()]: the decoded array of objects, or a
    [requests.RequestException]. *)
Inductive response : Type :=
| Ok (data : list (gmap string json))
| RequestException.

Definition client : Type := trace → nat → response.

(** Pages requested so far, oldest first. *)
Fixpoint requests_of (tr : trace) : list nat :=
  match tr with
  | [] => []
  | Request p :: tr' => p :: requests_of tr'
  | _ :: tr' => requests_of tr'
  end.

(** Number of requests for [page] so far. *)
Definition attempts_on (page : nat) (tr : trace) : nat :=
  length (filter (λ p, p = page) (requests_of tr)).

(** How a block of statements ends: it runs to its end in state [s], it
    executes [return v], or an exception leaves it. *)
Inductive control (S V : Type) : Type :=
| Normal (s : S)
| Returning (v : V)
| Raising
| OutOfFuel.
Arguments Normal {S V} s.
Arguments Returning {S V} v.
Arguments Raising {S V}.
Arguments OutOfFuel {S V}.

(** The result of a call. *)
Inductive result (V : Type) : Type :=
| Return (v : V)
| Raise
| Diverge.
Arguments Return {V} v.
Arguments Raise {V}.
Arguments Diverge {V}.

Definition half : Qc := Q2Qc (1 # 2).

(** ** app.py *)

Module App.

(** *** [fetch_market_data]: the page loop (lines 37-65) *)

(** [while attempt < retries: try: ... except RequestException: ...] *)
Fixpoint retry_loop (c : client) (page retries : nat) (delay : Qc)
    (fuel attempt : nat) (all_coins : list (gmap string json)) (tr : trace)
  : control (list (gmap string json)) (option (list (gmap string json))) * trace :=
  match fuel with
  | 0 => (OutOfFuel, tr)
  | S fuel' =>
    if attempt <? retries then
      match c tr page with
      | Ok data =>
        let tr := tr ++ [Request page] in
        match data with
        | _ :: _ =>
          (* all_coins.extend(data); time.sleep(0.5); break *)
          (Normal (all_coins ++ data), tr ++ [Sleep half])
        | [] =>
          (* warning on the first page only; break *)
          (Normal all_coins,
           if page =? 1 then tr ++ [StWarning (EmptyFirstPage page)] else tr)
        end
      | RequestException =>
        let tr := tr ++ [Request page] in
        let attempt := attempt + 1 in
        let tr := tr ++ [StWarning (ApiError page attempt retries)] in
        if attempt <? retries then
          retry_loop c page retries delay fuel' attempt all_coins
            (tr ++ [Sleep delay])
        else
          (Returning None, tr ++ [StError (FailedAfter retries)])
      end
    else (Normal all_coins, tr)
  end.

(** [for page in ...: attempt = 0; while ...] *)
Fixpoint page_loop (c : client) (retries : nat) (delay : Qc)
    (pages : list nat) (all_coins : list (gmap string json)) (tr : trace)
  : control (list (gmap string json)) (option (list (gmap string json))) * trace :=
  match pages with
  | [] => (Normal all_coins, tr)
  | page :: rest =>
    match retry_loop c page retries delay (S retries) 0 all_coins tr with
    | (Normal all_coins, tr) => page_loop c retries delay rest all_coins tr
    | stop => stop
    end
  end.

(** [all_coins = []] then the loop over [range(1, pages + 1)]. *)
Definition fetch_pages (c : client) (pages retries : nat) (delay : Qc)
  : control (list (gmap string json)) (option (list (gmap string json))) * trace :=
  page_loop c retries delay (seq 1 pages) [] [].

(** *** [fetch_market_data]: validation (lines 73-89) *)

Definition required_keys : list string :=
  ["id"; "symbol"; "name"; "market_cap"; "market_cap_rank"; "current_price"].

(** One entry of [skipped_coins_log], by the values its f-string shows. *)
Inductive skip_reason : Type :=
| MissingRank (id : json)
| MissingKeys (id rank : json) (missing_keys : list string).

(** [key not in coin or coin.get(key) is None] *)
Definition missing (coin : gmap string json) (key : string) : bool :=
  negb (dict_has coin key) || is_None (dict_get coin key JNull).

(** [{key: coin[key] for key in required_keys}]; it is only evaluated when no
    required key is missing, so [coin[key]] is a lookup that succeeds
    ([select_required_lookup]). *)
Definition select_required (coin : gmap string json) : gmap string json :=
  list_to_map ((λ key, (key, coin !!! key)) <$> required_keys).

(** The body of [for coin in all_coins]. *)
Definition process_coin
    (st : list (gmap string json) * list skip_reason) (coin : gmap string json)
  : list (gmap string json) * list skip_reason :=
  let '(processed_coins, skipped_coins_log) := st in
  if missing coin "market_cap_rank" then
    (processed_coins,
     skipped_coins_log ++ [MissingRank (dict_get coin "id" (JStr "Unknown ID"))])
  else
    let missing_keys := filter (λ key, missing coin key = true) required_keys in
    match missing_keys with
    | [] => (processed_coins ++ [select_required coin], skipped_coins_log)
    | _ =>
      (processed_coins,
       skipped_coins_log ++
         [MissingKeys (dict_get coin "id" (JStr "Unknown ID"))
                      (dict_get coin "market_cap_rank" (JStr "N/A"))
                      missing_keys])
    end.

Definition normalize (all_coins : list (gmap string json))
  : list (gmap string json) * list skip_reason :=
  foldl process_coin ([], []) all_coins.

(** *** [fetch_market_data] *)

Definition fetch_market_data (c : client) (pages retries : nat) (delay : Qc)
  : result (option (list (gmap string json))) * trace :=
  match fetch_pages c pages retries delay with
  | (Normal all_coins, tr) =>
    match all_coins with
    | [] => (Return None, tr ++ [StError NoDataFetched])
    | _ => (Return (Some (normalize all_coins).1), tr)
    end
  | (Returning v, tr) => (Return v, tr)
  | (Raising, tr) => (Raise, tr)
  | (OutOfFuel, tr) => (Diverge, tr)
  end.


(** *** "Calculate Allocation" (lines 194-255, 367-372)

    The block starts from [df] as it is after numeric coercion and
    [dropna] (lines 181-192): every row has a symbol and numeric market cap,
    price and rank. *)

Record row : Type := {
  id_ : string;
  symbol : string;
  name : string;
  market_cap : Qc;
  market_cap_rank : Z;
  current_price : Qc
}.

(** [str.lower], [str.upper] and [str.strip] on ASCII text; Python's
    treatment of characters outside ASCII is not modelled. *)
Definition lower_ascii (c : ascii) : ascii :=
  let n := nat_of_ascii c in
  if (65 <=? n) && (n <=? 90) then ascii_of_nat (n + 32) else c.

Definition upper_ascii (c : ascii) : ascii :=
  let n := nat_of_ascii c in
  if (97 <=? n) && (n <=? 122) then ascii_of_nat (n - 32) else c.

Fixpoint lower (s : string) : string :=
  match s with
  | EmptyString => EmptyString
  | String c s' => String (lower_ascii c) (lower s')
  end.

Fixpoint upper (s : string) : string :=
  match s with
  | EmptyString => EmptyString
  | String c s' => String (upper_ascii c) (upper s')
  end.

Definition is_space (c : ascii) : bool :=
  let n := nat_of_ascii c in
  (n =? 32) || ((9 <=? n) && (n <=? 13)) || ((28 <=? n) && (n <=? 31)).

Fixpoint lstrip (s : string) : string :=
  match s with
  | EmptyString => EmptyString
  | String c s' => if is_space c then lstrip s' else s
  end.

Fixpoint rstrip (s : string) : string :=
  match s with
  | EmptyString => EmptyString
  | String c s' =>
    match rstrip s' with
    | EmptyString => if is_space c then EmptyString else String c EmptyString
    | r => String c r
    end
  end.

Definition strip (s : string) : string := rstrip (lstrip s).

(** [s.split(',')] *)
Fixpoint split_comma (s : string) : list string :=
  match s with
  | EmptyString => [EmptyString]
  | String c s' =>
    if Ascii.eqb c "," then EmptyString :: split_comma s'
    else match split_comma s' with
         | t :: ts => String c t :: ts
         | [] => [String c EmptyString]
         end
  end.

(** Lines 203-204: the parsed exclusion list, with ["btc"] added. *)
Definition excluded_tokens (excluded_tokens_str : string) : gset string :=
  let parsed : gset string :=
    list_to_set
      ((λ t, lower (strip t)) <$>
         filter (λ t, strip t ≠ EmptyString) (split_comma excluded_tokens_str)) in
  parsed ∪ {["btc"]}.

(** Line 208: [df[~df['symbol'].str.lower().isin(excluded_tokens)]] *)
Definition filter_excluded (excluded : gset string) (df : list row) : list row :=
  filter (λ r, lower (symbol r) ∉ excluded) df.

(** [DataFrame.head(n)] for [n >= 0] *)
Definition head (n : nat) (df : list row) : list row := take n df.

(** [altcoin_basket['market_cap'].sum()], over exact numbers: the wrap-around
    of an int64 column sum and the rounding of a float64 one are not
    modelled. *)
Definition sum_market_cap (df : list row) : Qc :=
  foldr (λ r acc, (market_cap r + acc)%Qc) 0%Qc df.

Definition hundred : Qc := Qc_of_Z 100.

(** One row of [display_df] before its cells are formatted as text. *)
Record display_row : Type := {
  basket_rank : nat;
  Symbol : string;
  Name : string;
  overall_rank : Z;
  price_usd : Qc;
  market_cap_usd : Qc;
  weight_pct : Qc;
  target_allocation_usd : Qc
}.

(** Lines 239-255. Weight and target are the exact quotients; the code
    holds their float64 roundings. *)
Definition display_rows (altcoin_basket : list row)
    (total_altcoin_basket_market_cap target_altcoin_basket_usd : Qc)
  : list display_row :=
  imap (λ i r,
    let weight := (market_cap r / total_altcoin_basket_market_cap * hundred)%Qc in
    {| basket_rank := i + 1;
       Symbol := upper (symbol r);
       Name := name r;
       overall_rank := market_cap_rank r;
       price_usd := current_price r;
       market_cap_usd := market_cap r;
       weight_pct := weight;
       target_allocation_usd := (weight / hundred * target_altcoin_basket_usd)%Qc |})
    altcoin_basket.

(** What the block shows. *)
Inductive calc_result : Type :=
| NoAltcoinsRemaining
| CouldNotSelect (top_n : nat)
| ZeroMarketCap (target_btc_usd target_altcoin_basket_usd : Qc)
| Allocation (target_btc_usd target_altcoin_basket_usd : Qc)
    (display_df : list display_row)
    (total_altcoin_basket_market_cap : Qc)
    (ref_df : list row).

(** The targets computed at lines 230-231, when that point is reached. *)
Definition targets (r : calc_result) : option (Qc * Qc) :=
  match r with
  | ZeroMarketCap b a | Allocation b a _ _ _ => Some (b, a)
  | _ => None
  end.

Definition rows_of (r : calc_result) : list display_row :=
  match r with
  | Allocation _ _ rows _ _ => rows
  | _ => []
  end.

Section Calculator.

(** [df.sort_values(by='market_cap_rank', ascending=True)]: pandas code,
    called with its default [kind='quicksort']. Its documentation promises
    the rows in ascending order of the key, and stability only for
    [kind='mergesort'] and [kind='stable']. *)
Variable sort_values : list row → list row.

(** Lines 208-222: the rows the weights are computed over. *)
Definition altcoin_basket (df : list row) (excluded_tokens_str : string)
    (top_n_altcoins : nat) : list row :=
  head top_n_altcoins
    (filter_excluded (excluded_tokens excluded_tokens_str) (sort_values df)).

Definition calculate_allocation (df : list row)
    (total_portfolio_usd btc_target_weight_percent alt_target_weight_percent : Qc)
    (excluded_tokens_str : string) (top_n_altcoins : nat) : calc_result :=
  let df := sort_values df in
  let excluded_tokens := excluded_tokens excluded_tokens_str in
  let df_filtered := filter_excluded excluded_tokens df in
  match df_filtered with
  | [] => NoAltcoinsRemaining
  | _ =>
    let altcoin_basket := head top_n_altcoins df_filtered in
    match altcoin_basket with
    | [] => CouldNotSelect top_n_altcoins
    | _ =>
      let target_btc_usd :=
        (total_portfolio_usd * (btc_target_weight_percent / hundred))%Qc in
      let target_altcoin_basket_usd :=
        (total_portfolio_usd * (alt_target_weight_percent / hundred))%Qc in
      let total_altcoin_basket_market_cap := sum_market_cap altcoin_basket in
      if bool_decide (0 < total_altcoin_basket_market_cap)%Qc then
        let num_ref_coins := (top_n_altcoins + 20) `max` 50 in
        let num_ref_coins := num_ref_coins `min` length df in
        Allocation target_btc_usd target_altcoin_basket_usd
          (display_rows altcoin_basket total_altcoin_basket_market_cap
             target_altcoin_basket_usd)
          total_altcoin_basket_market_cap
          (head num_ref_coins df)
      else ZeroMarketCap target_btc_usd target_altcoin_basket_usd
    end
  end.

End Calculator.

(** What the documentation of [sort_values] promises of the default sort. *)
Definition rank_le (a b : row) : Prop := (market_cap_rank a ≤ market_cap_rank b)%Z.

Definition sorts_by_rank (sort : list row → list row) : Prop :=
  ∀ df, Permutation df (sort df) ∧ StronglySorted rank_le (sort df).

End App.

(** ** fetch_coingecko.py *)

Module FetchCoingecko.

(** [while attempt < retries: try: ... except requests.RequestException: ...]
    (lines 24-39); the exception of the last attempt is re-raised. No
    [return] occurs inside the loops, hence [Empty_set]. *)
Fixpoint retry_loop (c : client) (page retries : nat) (delay : Qc)
    (fuel attempt : nat) (all_coins : list (gmap string json)) (tr : trace)
  : control (list (gmap string json)) Empty_set * trace :=
  match fuel with
  | 0 => (OutOfFuel, tr)
  | S fuel' =>
    if attempt <? retries then
      match c tr page with
      | Ok data =>
        let tr := tr ++ [Request page] in
        match data with
        | _ :: _ =>
          (* all_coins.extend(data); time.sleep(1); break *)
          (Normal (all_coins ++ data), tr ++ [Sleep 1%Qc])
        | [] => (Normal all_coins, tr)
        end
      | RequestException =>
        let tr := tr ++ [Request page] in
        let attempt := attempt + 1 in
        if retries <=? attempt then (Raising, tr)
        else
          retry_loop c page retries delay fuel' attempt all_coins
            (tr ++ [Sleep delay])
      end
    else (Normal all_coins, tr)
  end.

(** [for page in range(1, pages + 1): attempt = 0; while ...] *)
Fixpoint page_loop (c : client) (retries : nat) (delay : Qc)
    (pages : list nat) (all_coins : list (gmap string json)) (tr : trace)
  : control (list (gmap string json)) Empty_set * trace :=
  match pages with
  | [] => (Normal all_coins, tr)
  | page :: rest =>
    match retry_loop c page retries delay (S retries) 0 all_coins tr with
    | (Normal all_coins, tr) => page_loop c retries delay rest all_coins tr
    | stop => stop
    end
  end.

Definition fetch_pages (c : client) (pages retries : nat) (delay : Qc)
  : control (list (gmap string json)) Empty_set * trace :=
  page_loop c retries delay (seq 1 pages) [] [].

Definition selected_keys : list string :=
  ["id"; "symbol"; "name"; "market_cap_rank"; "market_cap"; "current_price"].

(** [{k: coin.get(k) for k in selected_keys}] *)
Definition select (coin : gmap string json) : gmap string json :=
  list_to_map ((λ k, (k, dict_get coin k JNull)) <$> selected_keys).

Definition fetch_market_data (c : client) (pages retries : nat) (delay : Qc)
  : result (list (gmap string json)) * trace :=
  match fetch_pages c pages retries delay with
  | (Normal all_coins, tr) => (Return (select <$> all_coins), tr)
  | (Returning v, _) => match v with end
  | (Raising, tr) => (Raise, tr)
  | (OutOfFuel, tr) => (Diverge, tr)
  end.

(** [main]: the records that are dumped to the JSON file. *)
Definition main (c : client) : result (list (gmap string json)) * trace :=
  fetch_market_data c 2 3 (Qc_of_Z 5).

End FetchCoingecko.

(** ** fetcher.py *)

Module Fetcher.

Definition EXCLUDE_STABLES : gset string :=
  {["USDT"; "USDC"; "DAI"; "TUSD"; "FDUSD"]}.

(** Dates are proleptic Gregorian ordinals ([date.toordinal()]); day 1 is a
    Monday, so [weekday()] is [(d - 1) mod 7]. *)
Definition weekday (d : Z) : Z := ((d - 1) `mod` 7)%Z.

Fixpoint mondays_back (n : nat) (last_mon : Z) : list Z :=
  match n with
  | 0 => []
  | S n' => last_mon :: mondays_back n' (last_mon - 7)%Z
  end.

(** [today + relativedelta(weekday=MO(-1))] is the Monday on or before
    [today]; the generator then yields it and the three Mondays before. *)
Definition last_four_mondays (today : Z) : list Z :=
  mondays_back 4 (today - weekday today)%Z.

Inductive exn : Type :=
| KeyError (key : string)
| TypeError
| HTTPError.

#[local] Instance exn_bind : MBind (sum exn) :=
  λ A B f m, match m with inl e => inl e | inr a => f a end.

(** [d[key]] on a dict *)
Definition item_get (d : gmap string json) (key : string) : exn + json :=
  match d !! key with
  | Some v => inr v
  | None => inl (KeyError key)
  end.

(** [v[key]] on a decoded JSON value: only a dict takes a string key. *)
Definition subscript (v : json) (key : string) : exn + json :=
  match v with
  | JObj d => item_get d key
  | _ => inl TypeError
  end.

(** [v > 50]: numbers compare, [True] and [False] count as 1 and 0, any
    other operand raises [TypeError]. *)
Definition gt_50 (v : json) : exn + bool :=
  match v with
  | JNum q => inr (bool_decide (Qc_of_Z 50 < q)%Qc)
  | JBool _ => inr false
  | _ => inl TypeError
  end.

(** [v in EXCLUDE_STABLES]: lists and dicts are unhashable. *)
Definition in_stables (v : json) : exn + bool :=
  match v with
  | JStr s => inr (bool_decide (s ∈ EXCLUDE_STABLES))
  | JArr _ | JObj _ => inl TypeError
  | _ => inr false
  end.

(** One CSV row; [snapshot_date] is kept as the day, not as ISO text. *)
Record row : Type := {
  snapshot_date : Z;
  rank : json;
  symbol : json;
  price_usd : json;
  market_cap_usd : json
}.

Inductive step : Type :=
| Break
| Continue
| Append (r : row).

(** The body of [for item in resp.json()] (lines 28-39). *)
Definition item_step (day : Z) (item : gmap string json) : exn + step :=
  r ← item_get item "rank";
  over ← gt_50 r;
  if (over : bool) then inr Break
  else
    s ← item_get item "symbol";
    stable ← in_stables s;
    if (stable : bool) then inr Continue
    else
      quotes ← item_get item "quotes";
      usd ← subscript quotes "USD";
      rank ← item_get item "rank";
      symbol ← item_get item "symbol";
      price ← subscript usd "price";
      market_cap ← subscript usd "market_cap";
      inr (Append {| snapshot_date := day; rank := rank; symbol := symbol;
                     price_usd := price; market_cap_usd := market_cap |}).

(** [for item in resp.json(): ...] on the shared list [rows]. *)
Fixpoint process_items (day : Z) (items : list (gmap string json))
    (rows : list row) : list row * option exn :=
  match items with
  | [] => (rows, None)
  | item :: rest =>
    match item_step day item with
    | inl e => (rows, Some e)
    | inr Break => (rows, None)
    | inr Continue => process_items day rest rows
    | inr (Append r) => process_items day rest (rows ++ [r])
    end
  end.

(** [for day in last_four_mondays(): ...]; [api i] is the answer to the
    [i]-th GET of the run. The final [rows] is what [to_csv] writes when no
    exception ended the run. *)
Fixpoint day_loop (api : nat → response) (i : nat) (days : list Z)
    (rows : list row) : list row * option exn :=
  match days with
  | [] => (rows, None)
  | day :: rest =>
    match api i with
    | RequestException => (rows, Some HTTPError)
    | Ok items =>
      match process_items day items rows with
      | (rows, None) => day_loop api (S i) rest rows
      | stop => stop
      end
    end
  end.

Definition main (api : nat → response) (today : Z) : list row * option exn :=
  day_loop api 0 (last_four_mondays today) [].

End Fetcher.

(** ** Fake clients and sample records *)

(** The request for [page] fails [n] times and then answers [data]. *)
Definition fails_then_succeeds (c : client) (page n : nat)
    (data : list (gmap string json)) : Prop :=
  (∀ tr, attempts_on page tr < n → c tr page = RequestException) ∧
  (∀ tr, attempts_on page tr = n → c tr page = Ok data).

(** The request for [page] fails whenever it is made. *)
Definition always_fails (c : client) (page : nat) : Prop :=
  ∀ tr, c tr page = RequestException.

(** The requests of a run in which page [p] takes [n p] failed attempts. *)
Definition requests_with (n : nat → nat) (pages : list nat) : list nat :=
  mjoin ((λ p, replicate (S (n p)) p) <$> pages).

(** A client whose every page fails [n] times and then answers [d page]. *)
Definition flaky_client (n : nat) (d : nat → list (gmap string json)) : client :=
  λ tr page, if attempts_on page tr <? n then RequestException else Ok (d page).

(** As [flaky_client], but page [k] never answers. *)
Definition failing_client (k n : nat) (d : nat → list (gmap string json))
  : client :=
  λ tr page, if page =? k then RequestException else flaky_client n d tr page.

(** A client that never fails and answers [d page]. *)
Definition scripted_client (d : nat → list (gmap string json)) : client :=
  λ _ page, Ok (d page).

(** A record of the CoinGecko shape, with one field the code does not use. *)
Definition sample_coin (id symbol name : string) (rank cap price : Z)
  : gmap string json :=
  list_to_map
    [("id", JStr id); ("symbol", JStr symbol); ("name", JStr name);
     ("market_cap", JNum (Qc_of_Z cap));
     ("market_cap_rank", JNum (Qc_of_Z rank));
     ("current_price", JNum (Qc_of_Z price));
     ("total_volume", JNum (Qc_of_Z 7))].

Definition eth : gmap string json := sample_coin "ethereum" "eth" "Ethereum" 2 500 30.
Definition sol : gmap string json := sample_coin "solana" "sol" "Solana" 5 100 2.

(** Page 1 has a record, page 2 is empty, page 3 has a record. *)
Definition gap_pages (page : nat) : list (gmap string json) :=
  match page with
  | 1 => [eth]
  | 2 => []
  | _ => [sol]
  end.

Definition one_per_page (page : nat) : list (gmap string json) :=
  match page with
  | 1 => [eth]
  | _ => [sol]
  end.

Definition five : Qc := Qc_of_Z 5.

(** ** Complete records *)

(** A record with all six fields present and non-null. *)
Definition complete (rec : gmap string json) : Prop :=
  dom rec = list_to_set App.required_keys ∧
  ∀ key, key ∈ App.required_keys → ∃ v, rec !! key = Some v ∧ v ≠ JNull.

(** A processing step that never emits a partially populated record. *)
Definition emits_only_complete_records
    (pipeline : list (gmap string json) → list (gmap string json)) : Prop :=
  ∀ all_coins rec, rec ∈ pipeline all_coins → complete rec.

(** The field [key] of [coin] is absent or null. *)
Definition absent_or_null (coin : gmap string json) (key : string) : Prop :=
  coin !! key = None ∨ coin !! key = Some JNull.

(** A record without market cap, and a valid record whose rank is null. *)
Definition no_cap : gmap string json := delete "market_cap" eth.
Definition null_rank : gmap string json := <["market_cap_rank" := JNull]> sol.

(** ** Rows of the CSV snapshot *)

(** The rank of a row is a number not above 50 (or a JSON boolean, which
    Python compares as 0 or 1), and its symbol is none of the five
    stablecoin tickers, compared as they are written. *)
Definition row_ok (r : Fetcher.row) : Prop :=
  match Fetcher.rank r with
  | JNum q => (q <= Qc_of_Z 50)%Qc
  | JBool _ => True
  | _ => False
  end ∧
  ∀ s, Fetcher.symbol r = JStr s → s ∉ Fetcher.EXCLUDE_STABLES.

(** A ticker of the CoinPaprika shape. *)
Definition ticker (rank : Z) (symbol : string) (price cap : Z) : gmap string json :=
  list_to_map
    [("rank", JNum (Qc_of_Z rank)); ("symbol", JStr symbol);
     ("quotes",
      JObj (list_to_map
              [("USD",
                JObj (list_to_map [("price", JNum (Qc_of_Z price));
                                   ("market_cap", JNum (Qc_of_Z cap))]))]))].

(** ** Sorting by rank, weights and sample rows *)

(** Records with equal rank keep their input order. *)
Definition stable (df out : list App.row) : Prop :=
  ∀ k : Z,
    filter (λ r, App.market_cap_rank r = k) out
    = filter (λ r, App.market_cap_rank r = k) df.

(** The sort of the specification's words: ascending by rank, ties in
    input order. A row is put before the first row of equal or larger rank
    among those that came after it. *)
Fixpoint insert_before (x : App.row) (l : list App.row) : list App.row :=
  match l with
  | [] => [x]
  | y :: l' =>
    if bool_decide (App.market_cap_rank x ≤ App.market_cap_rank y)%Z
    then x :: l else y :: insert_before x l'
  end.

Definition stable_sort_by_rank (df : list App.row) : list App.row :=
  foldr insert_before [] df.

(** Another sort by rank: a row is put after the rows of equal rank that
    came after it, so ties come out in reverse input order. *)
Fixpoint insert_after (x : App.row) (l : list App.row) : list App.row :=
  match l with
  | [] => [x]
  | y :: l' =>
    if bool_decide (App.market_cap_rank x < App.market_cap_rank y)%Z
    then x :: l else y :: insert_after x l'
  end.

Definition reversing_sort_by_rank (df : list App.row) : list App.row :=
  foldr insert_after [] df.

Definition sample_row (symbol : string) (rank cap : Z) : App.row :=
  {| App.id_ := symbol; App.symbol := symbol; App.name := symbol;
     App.market_cap := Qc_of_Z cap; App.market_cap_rank := rank;
     App.current_price := 1%Qc |}.

(** Five cleaned rows, not in rank order; BTC and a stablecoin in front. *)
Definition sample_df : list App.row :=
  [sample_row "USDT" 3 80; sample_row "BTC" 1 1000; sample_row "ETH" 2 500;
   sample_row "SOL" 5 100; sample_row "XRP" 4 150].

(** Two rows of the same rank. *)
Definition tied_df : list App.row :=
  [sample_row "AAA" 7 10; sample_row "BBB" 7 10].

(** Forty rows over five ranks, the ranks scattered: row [i] has the
    symbol with character code [65 + i], rank [(7 i mod 5) + 1] and market
    cap [i], so each rank occurs eight times. *)
Definition tied_frame : list App.row :=
  (λ i : nat,
     sample_row (String (ascii_of_nat (65 + i)) EmptyString)
       (Z.of_nat ((i * 7) `mod` 5) + 1) (Z.of_nat i)) <$> seq 0 40.

(** ** The default kind of [sort_values]

    [df.sort_values(by='market_cap_rank', ascending=True)] names no [kind],
    so pandas orders the frame by [argsort(kind='quicksort')] of the rank
    column and takes the rows in that order. For an int64 column numpy's
    generic indirect quicksort is [aquicksort_] of [npysort/quicksort.cpp]:
    partitions of more than seventeen elements are split around the median
    of three, shorter ones sorted by insertion. [Numpy.aquicksort] follows
    it statement by statement; a pointer into [tosort] is its position. *)
Module Numpy.

Definition SMALL_QUICKSORT : Z := 16.

Definition deref (tosort : list nat) (p : Z) : nat := tosort !!! Z.to_nat p.

Definition store (tosort : list nat) (p : Z) (i : nat) : list nat :=
  <[Z.to_nat p := i]> tosort.

Definition INTP_SWAP (tosort : list nat) (a b : Z) : list nat :=
  store (store tosort a (deref tosort b)) b (deref tosort a).

(** [v[*p]] *)
Definition elt (v : list Z) (tosort : list nat) (p : Z) : Z :=
  v !!! deref tosort p.

(** [do { ++pi; } while (less(v[*pi], vp));] *)
Fixpoint scan_up (fuel : nat) (v : list Z) (vp : Z) (tosort : list nat) (pi : Z)
    : option Z :=
  match fuel with
  | O => None
  | S fuel =>
    let pi := (pi + 1)%Z in
    if (elt v tosort pi <? vp)%Z then scan_up fuel v vp tosort pi else Some pi
  end.

(** [do { --pj; } while (less(vp, v[*pj]));] *)
Fixpoint scan_down (fuel : nat) (v : list Z) (vp : Z) (tosort : list nat) (pj : Z)
    : option Z :=
  match fuel with
  | O => None
  | S fuel =>
    let pj := (pj - 1)%Z in
    if (vp <? elt v tosort pj)%Z then scan_down fuel v vp tosort pj else Some pj
  end.

(** The [for (;;)] of the partition; it ends with [pi] where the pivot
    belongs. *)
Fixpoint partition (fuel : nat) (v : list Z) (vp : Z) (tosort : list nat)
    (pi pj : Z) : option (list nat * Z) :=
  match fuel with
  | O => None
  | S fuel =>
    pi ← scan_up (length tosort) v vp tosort pi;
    pj ← scan_down (length tosort) v vp tosort pj;
    if (pi >=? pj)%Z then Some (tosort, pi)
    else partition fuel v vp (INTP_SWAP tosort pi pj) pi pj
  end.

(** [while (pj > pl && less(vp, v[*pk])) { *pj-- = *pk--; }], [pk] being
    [pj - 1] throughout. *)
Fixpoint shift (fuel : nat) (v : list Z) (vp : Z) (tosort : list nat) (pl pj : Z)
    : list nat * Z :=
  match fuel with
  | O => (tosort, pj)
  | S fuel =>
    if bool_decide (pl < pj)%Z && (vp <? elt v tosort (pj - 1))%Z
    then shift fuel v vp (store tosort pj (deref tosort (pj - 1))) pl (pj - 1)%Z
    else (tosort, pj)
  end.

(** The insertion sort of [pl .. pr]. *)
Definition insertion_sort (v : list Z) (tosort : list nat) (pl pr : Z) : list nat :=
  foldl (λ tosort pi,
           let vi := deref tosort pi in
           let vp := v !!! vi in
           let '(tosort, pj) := shift (Z.to_nat (pi - pl)) v vp tosort pl pi in
           store tosort pj vi)
        tosort (seqZ (pl + 1) (pr - pl)).

(** The two stacks of the source, of pointers and of depths, as one: an
    entry is a pending partition and the depth left for it. *)
Definition stack : Type := list (Z * Z * Z).

(** [while ((pr - pl) > SMALL_QUICKSORT)]: split, push the larger part,
    go on with the smaller. *)
Fixpoint split_loop (fuel : nat) (v : list Z) (tosort : list nat) (st : stack)
    (pl pr cdepth : Z) : option (list nat * stack * Z * Z) :=
  match fuel with
  | O => None
  | S fuel =>
    if (SMALL_QUICKSORT <? pr - pl)%Z then
      let pm := (pl + Z.shiftr (pr - pl) 1)%Z in
      let tosort :=
        if (elt v tosort pm <? elt v tosort pl)%Z
        then INTP_SWAP tosort pm pl else tosort in
      let tosort :=
        if (elt v tosort pr <? elt v tosort pm)%Z
        then INTP_SWAP tosort pr pm else tosort in
      let tosort :=
        if (elt v tosort pm <? elt v tosort pl)%Z
        then INTP_SWAP tosort pm pl else tosort in
      let vp := elt v tosort pm in
      let tosort := INTP_SWAP tosort pm (pr - 1) in
      '(tosort, pi) ← partition (length tosort) v vp tosort pl (pr - 1);
      let tosort := INTP_SWAP tosort pi (pr - 1) in
      let cdepth := (cdepth - 1)%Z in
      if (pi - pl <? pr - pi)%Z
      then split_loop fuel v tosort ((pi + 1, pr, cdepth)%Z :: st)
             pl (pi - 1)%Z cdepth
      else split_loop fuel v tosort ((pl, pi - 1, cdepth)%Z :: st)
             (pi + 1)%Z pr cdepth
    else Some (tosort, st, pl, pr)
  end.

(** The [while (1)]. Below the depth limit the source hands the partition
    to a heapsort, which is not modelled: the result is [None] there, as it
    is when the fuel runs out. *)
Fixpoint sort_loop (fuel : nat) (v : list Z) (tosort : list nat) (st : stack)
    (pl pr cdepth : Z) : option (list nat) :=
  match fuel with
  | O => None
  | S fuel =>
    if (cdepth <? 0)%Z then None
    else
      '(tosort, st, pl, pr) ← split_loop (length tosort) v tosort st pl pr cdepth;
      let tosort := insertion_sort v tosort pl pr in
      match st with
      | [] => Some tosort
      | (pl, pr, cdepth) :: st => sort_loop fuel v tosort st pl pr cdepth
      end
  end.

(** [npy_get_msb(num) * 2] is the depth limit. *)
Definition aquicksort (v : list Z) (tosort : list nat) : option (list nat) :=
  let num := Z.of_nat (length tosort) in
  sort_loop (S (length tosort)) v tosort [] 0 (num - 1) (Z.log2 num * 2).

(** [v.argsort(kind='quicksort')] *)
Definition argsort (v : list Z) : option (list nat) :=
  aquicksort v (seq 0 (length v)).

End Numpy.

(** [sort_values] at its default kind: the rows taken in the order of the
    argsort of their ranks. *)
Definition quicksort_by_rank (df : list App.row) : option (list App.row) :=
  order ← Numpy.argsort (App.market_cap_rank <$> df);
  mapM (λ i, df !! i) order.

(** ** Request discipline *)

(** [ks !! i] requests for the page [ps !! i], page after page. *)
Definition blocks (ks ps : list nat) : list nat :=
  mjoin (zip_with replicate ks ps).

(** What a run may ask of the API: pages in ascending order, only pages
    [1..pages], no page more than [retries] times. *)
Definition disciplined (pages retries : nat) (tr : trace) : Prop :=
  StronglySorted le (requests_of tr)
  ∧ (∀ p, p ∈ requests_of tr → 1 ≤ p ≤ pages)
  ∧ (∀ p, attempts_on p tr ≤ retries)
  ∧ length (requests_of tr) ≤ pages * retries.

(** A client that looks at the requests made so far and at nothing else. *)
Definition history_client (f : list nat → nat → response) : client :=
  λ tr page, f (requests_of tr) page.

(** The two page loops end the same way: with the same records, or with
    [return None] in [app.py] where [fetch_coingecko.py] raises. *)
Definition same_outcome
    (a : control (list (gmap string json)) (option (list (gmap string json))) * trace)
    (b : control (list (gmap string json)) Empty_set * trace) : Prop :=
  requests_of a.2 = requests_of b.2 ∧
  match a.1, b.1 with
  | Normal x, Normal y => x = y
  | Returning None, Raising => True
  | _, _ => False
  end.

(** ** Validation, record by record *)

(** None of the six required keys is absent or null. *)
Definition valid (coin : gmap string json) : bool :=
  forallb (λ key, negb (App.missing coin key)) App.required_keys.

(** A skip-log entry says what is true of some input record. *)
Definition justified (all_coins : list (gmap string json))
    (e : App.skip_reason) : Prop :=
  match e with
  | App.MissingRank id =>
    ∃ coin, coin ∈ all_coins
            ∧ absent_or_null coin "market_cap_rank"
            ∧ id = dict_get coin "id" (JStr "Unknown ID")
  | App.MissingKeys id rank missing_keys =>
    ∃ coin, coin ∈ all_coins
            ∧ coin !! "market_cap_rank" = Some rank ∧ rank ≠ JNull
            ∧ id = dict_get coin "id" (JStr "Unknown ID")
            ∧ missing_keys ≠ []
            ∧ ("market_cap_rank" ∉ missing_keys)
            ∧ (∀ key, key ∈ missing_keys
                      ↔ (key ∈ App.required_keys ∧ absent_or_null coin key))
  end.

(** ** Strings, character by character *)

(** The string [s] with [f] applied to each character. *)
Fixpoint map_string (f : ascii → ascii) (s : string) : string :=
  match s with
  | EmptyString => EmptyString
  | String c s' => String (f c) (map_string f s')
  end.

(** ** Well-formed tickers *)

(** An item with a numeric rank, a text symbol and USD quotes that hold a
    price and a market cap. *)
Definition well_formed (item : gmap string json) : Prop :=
  ∃ (q : Qc) (sym : string) (quotes usd : gmap string json) (price cap : json),
    item !! "rank" = Some (JNum q)
    ∧ item !! "symbol" = Some (JStr sym)
    ∧ item !! "quotes" = Some (JObj quotes)
    ∧ quotes !! "USD" = Some (JObj usd)
    ∧ usd !! "price" = Some price
    ∧ usd !! "market_cap" = Some cap.

(** Later dates come first. *)
Definition newest_first (dates : list Z) : Prop :=
  StronglySorted (λ x y : Z, (y ≤ x)%Z) dates.

(** * Properties *)

(** ** Traces *)

Lemma requests_of_app (tr1 tr2 : trace) :
  requests_of (tr1 ++ tr2) = requests_of tr1 ++ requests_of tr2.
Proof.
  induction tr1 as [|e tr1 IH]; [done|].
  destruct e; simpl; by rewrite IH.
Qed.

Lemma attempts_on_app page (tr1 tr2 : trace) :
  attempts_on page (tr1 ++ tr2) = attempts_on page tr1 + attempts_on page tr2.
Proof.
  unfold attempts_on. by rewrite requests_of_app, filter_app, length_app.
Qed.

Lemma count_fresh (page : nat) (ps : list nat) :
  page ∉ ps → length (filter (λ p, p = page) ps) = 0.
Proof.
  induction ps as [|p ps IH]; [done|].
  intros Hnotin. apply not_elem_of_cons in Hnotin as [Hne Hnotin].
  rewrite filter_cons_False by congruence. auto.
Qed.

Lemma count_replicate (page n : nat) :
  length (filter (λ p, p = page) (replicate n page)) = n.
Proof.
  induction n as [|n IH]; [done|].
  simpl. rewrite filter_cons_True by done. simpl. by rewrite IH.
Qed.

Lemma attempts_on_fresh page (tr : trace) :
  page ∉ requests_of tr → attempts_on page tr = 0.
Proof. apply count_fresh. Qed.

Ltac in_list :=
  repeat first [apply list_elem_of_here | apply list_elem_of_further].

Ltac loop_step :=
  repeat first
    [ progress simpl
    | rewrite requests_of_app
    | rewrite attempts_on_app
    | rewrite app_nil_r
    | rewrite <- app_assoc ].

(** ** app.py: the page loop *)

Lemma app_retry_loop_fuel c page retries delay fuel attempt all_coins tr :
  retries - attempt < fuel →
  (App.retry_loop c page retries delay fuel attempt all_coins tr).1 ≠ OutOfFuel.
Proof.
  revert attempt tr. induction fuel as [|fuel IH]; intros attempt tr Hfuel; [lia|].
  simpl. destruct (attempt <? retries) eqn:Hlt; [|done].
  apply Nat.ltb_lt in Hlt.
  destruct (c tr page) as [[|coin data]|]; try done.
  destruct (attempt + 1 <? retries) eqn:Hlt'; [|done].
  apply IH. lia.
Qed.

Lemma app_retry_loop_flaky c page retries delay data n :
  fails_then_succeeds c page n data → n < retries →
  ∀ fuel attempt all_coins tr,
    attempts_on page tr = attempt → attempt ≤ n → n - attempt < fuel →
    ∃ tr', App.retry_loop c page retries delay fuel attempt all_coins tr
             = (Normal (all_coins ++ data), tr')
           ∧ requests_of tr' = requests_of tr ++ replicate (S n - attempt) page.
Proof.
  intros [Hfail Hok] Hn fuel.
  induction fuel as [|fuel IH]; intros attempt all_coins tr Hatt Hle Hfuel; [lia|].
  simpl. replace (attempt <? retries) with true by (symmetry; apply Nat.ltb_lt; lia).
  destruct (decide (attempt = n)) as [->|Hne].
  - rewrite (Hok tr Hatt). replace (S n - n) with 1 by lia.
    destruct data as [|coin data].
    + eexists; split; [by rewrite app_nil_r|].
      destruct (page =? 1); by loop_step.
    + eexists; split; [done|]. by loop_step.
  - rewrite (Hfail tr) by lia.
    replace (attempt + 1 <? retries) with true by (symmetry; apply Nat.ltb_lt; lia).
    edestruct (IH (attempt + 1) all_coins) as (tr' & -> & Hreq); [| |shelve|].
    + loop_step. unfold attempts_on at 2 3 4. simpl.
      rewrite filter_cons_True by done. simpl. lia.
    + lia.
    + eexists; split; [done|]. rewrite Hreq. loop_step.
      replace (S n - attempt) with (S (S n - (attempt + 1))) by lia. done.
  Unshelve. lia.
Qed.

Lemma app_retry_loop_always_fails c page retries delay :
  always_fails c page →
  ∀ fuel attempt all_coins tr,
    attempt < retries → retries - attempt ≤ fuel →
    ∃ tr', App.retry_loop c page retries delay fuel attempt all_coins tr
             = (Returning None, tr')
           ∧ requests_of tr' = requests_of tr ++ replicate (retries - attempt) page.
Proof.
  intros Hfail fuel.
  induction fuel as [|fuel IH]; intros attempt all_coins tr Hlt Hfuel; [lia|].
  simpl. replace (attempt <? retries) with true by (symmetry; apply Nat.ltb_lt; lia).
  rewrite Hfail.
  destruct (attempt + 1 <? retries) eqn:Hnext.
  - apply Nat.ltb_lt in Hnext.
    edestruct (IH (attempt + 1) all_coins) as (tr' & -> & Hreq); [done|lia|].
    eexists; split; [done|]. rewrite Hreq. loop_step.
    replace (retries - attempt) with (S (retries - (attempt + 1))) by lia. done.
  - apply Nat.ltb_ge in Hnext.
    eexists; split; [done|]. loop_step.
    replace (retries - attempt) with 1 by lia. done.
Qed.

#[local] Arguments App.retry_loop : simpl never.

Lemma app_page_loop_app c retries delay ps1 ps2 all_coins tr :
  App.page_loop c retries delay (ps1 ++ ps2) all_coins tr =
  match App.page_loop c retries delay ps1 all_coins tr with
  | (Normal all_coins', tr') => App.page_loop c retries delay ps2 all_coins' tr'
  | stop => stop
  end.
Proof.
  revert all_coins tr. induction ps1 as [|p ps1 IH]; intros all_coins tr; [done|].
  simpl. destruct (App.retry_loop _ _ _ _ _ _ _ _) as [[a| | |] tr']; auto.
Qed.

Lemma app_page_loop_flaky c retries delay (n : nat → nat)
    (d : nat → list (gmap string json)) ps :
  NoDup ps →
  (∀ p, p ∈ ps → n p < retries ∧ fails_then_succeeds c p (n p) (d p)) →
  ∀ all_coins tr,
    (∀ p, p ∈ ps → p ∉ requests_of tr) →
    ∃ tr', App.page_loop c retries delay ps all_coins tr
             = (Normal (all_coins ++ mjoin (d <$> ps)), tr')
           ∧ requests_of tr' = requests_of tr ++ requests_with n ps.
Proof.
  induction ps as [|p ps IH]; intros Hnodup Hflaky all_coins tr Hfresh.
  - exists tr. unfold requests_with. simpl. by rewrite !app_nil_r.
  - apply NoDup_cons in Hnodup as [Hp Hnodup].
    destruct (Hflaky p) as [Hn Hc]; [apply list_elem_of_here|].
    destruct (app_retry_loop_flaky c p retries delay (d p) (n p) Hc Hn
                (S retries) 0 all_coins tr) as (tr1 & Hrun & Hreq1).
    { apply attempts_on_fresh, Hfresh, list_elem_of_here. }
    { lia. }
    { lia. }
    simpl. rewrite Hrun.
    destruct (IH Hnodup) with (all_coins := all_coins ++ d p) (tr := tr1)
      as (tr2 & Hrun2 & Hreq2).
    { intros q Hq. by apply Hflaky, list_elem_of_further. }
    { intros q Hq. rewrite Hreq1, Nat.sub_0_r. intros Hin.
      apply elem_of_app in Hin as [Hin|Hin].
      - by apply (Hfresh q); [apply list_elem_of_further|].
      - apply elem_of_replicate in Hin as [-> _]. done. }
    exists tr2. split.
    + rewrite Hrun2. by rewrite <- app_assoc.
    + rewrite Hreq2, Hreq1, Nat.sub_0_r. unfold requests_with. simpl.
      by rewrite <- app_assoc.
Qed.

Lemma seq_split_at k pages :
  1 ≤ k ≤ pages → seq 1 pages = seq 1 (k - 1) ++ k :: seq (S k) (pages - k).
Proof.
  intros Hk.
  assert (∃ a b, k = S a ∧ pages = a + S b) as (a & b & -> & ->)
    by (exists (k - 1), (pages - k); lia).
  rewrite seq_app. simpl. rewrite Nat.sub_0_r.
  by replace (a + S b - S a) with b by lia.
Qed.

Lemma app_page_loop_fails_at c retries delay (n : nat → nat)
    (d : nat → list (gmap string json)) k pages :
  1 ≤ retries → 1 ≤ k ≤ pages →
  (∀ p, 1 ≤ p < k → n p < retries ∧ fails_then_succeeds c p (n p) (d p)) →
  always_fails c k →
  ∃ tr, App.fetch_pages c pages retries delay = (Returning None, tr)
        ∧ requests_of tr = requests_with n (seq 1 (k - 1)) ++ replicate retries k.
Proof.
  intros Hr Hk Hflaky Hfail. unfold App.fetch_pages.
  rewrite (seq_split_at k pages Hk), app_page_loop_app.
  destruct (app_page_loop_flaky c retries delay n d (seq 1 (k - 1)))
    with (all_coins := @nil (gmap string json)) (tr := @nil event)
    as (tr1 & -> & Hreq1).
  { apply NoDup_seq. }
  { intros p Hp. apply Hflaky. apply elem_of_seq in Hp. lia. }
  { intros p _. simpl. apply not_elem_of_nil. }
  simpl.
  destruct (app_retry_loop_always_fails c k retries delay Hfail (S retries) 0
              (mjoin (d <$> seq 1 (k - 1))) tr1) as (tr2 & -> & Hreq2); [lia..|].
  exists tr2. split; [done|]. by rewrite Hreq2, Hreq1, Nat.sub_0_r.
Qed.

(** ** fetch_coingecko.py: the page loop *)

Lemma batch_retry_loop_fuel c page retries delay fuel attempt all_coins tr :
  retries - attempt < fuel →
  (FetchCoingecko.retry_loop c page retries delay fuel attempt all_coins tr).1
    ≠ OutOfFuel.
Proof.
  revert attempt tr. induction fuel as [|fuel IH]; intros attempt tr Hfuel; [lia|].
  simpl. destruct (attempt <? retries) eqn:Hlt; [|done].
  apply Nat.ltb_lt in Hlt.
  destruct (c tr page) as [[|coin data]|]; try done.
  destruct (retries <=? attempt + 1) eqn:Hge; [done|].
  apply IH. lia.
Qed.

Lemma batch_retry_loop_flaky c page retries delay data n :
  fails_then_succeeds c page n data → n < retries →
  ∀ fuel attempt all_coins tr,
    attempts_on page tr = attempt → attempt ≤ n → n - attempt < fuel →
    ∃ tr', FetchCoingecko.retry_loop c page retries delay fuel attempt all_coins tr
             = (Normal (all_coins ++ data), tr')
           ∧ requests_of tr' = requests_of tr ++ replicate (S n - attempt) page.
Proof.
  intros [Hfail Hok] Hn fuel.
  induction fuel as [|fuel IH]; intros attempt all_coins tr Hatt Hle Hfuel; [lia|].
  simpl. replace (attempt <? retries) with true by (symmetry; apply Nat.ltb_lt; lia).
  destruct (decide (attempt = n)) as [->|Hne].
  - rewrite (Hok tr Hatt). replace (S n - n) with 1 by lia.
    destruct data as [|coin data]; (eexists; split; [by rewrite ?app_nil_r|]);
      by loop_step.
  - rewrite (Hfail tr) by lia.
    replace (retries <=? attempt + 1) with false
      by (symmetry; apply Nat.leb_gt; lia).
    edestruct (IH (attempt + 1) all_coins) as (tr' & -> & Hreq); [| |shelve|].
    + loop_step. unfold attempts_on at 2 3. simpl.
      rewrite filter_cons_True by done. simpl. lia.
    + lia.
    + eexists; split; [done|]. rewrite Hreq. loop_step.
      replace (S n - attempt) with (S (S n - (attempt + 1))) by lia. done.
  Unshelve. lia.
Qed.

Lemma batch_retry_loop_always_fails c page retries delay :
  always_fails c page →
  ∀ fuel attempt all_coins tr,
    attempt < retries → retries - attempt ≤ fuel →
    ∃ tr', FetchCoingecko.retry_loop c page retries delay fuel attempt all_coins tr
             = (Raising, tr')
           ∧ requests_of tr' = requests_of tr ++ replicate (retries - attempt) page.
Proof.
  intros Hfail fuel.
  induction fuel as [|fuel IH]; intros attempt all_coins tr Hlt Hfuel; [lia|].
  simpl. replace (attempt <? retries) with true by (symmetry; apply Nat.ltb_lt; lia).
  rewrite Hfail.
  destruct (retries <=? attempt + 1) eqn:Hlast.
  - apply Nat.leb_le in Hlast.
    eexists; split; [done|]. loop_step.
    replace (retries - attempt) with 1 by lia. done.
  - apply Nat.leb_gt in Hlast.
    edestruct (IH (attempt + 1) all_coins) as (tr' & -> & Hreq); [done|lia|].
    eexists; split; [done|]. rewrite Hreq. loop_step.
    replace (retries - attempt) with (S (retries - (attempt + 1))) by lia. done.
Qed.

#[local] Arguments FetchCoingecko.retry_loop : simpl never.

Lemma batch_page_loop_app c retries delay ps1 ps2 all_coins tr :
  FetchCoingecko.page_loop c retries delay (ps1 ++ ps2) all_coins tr =
  match FetchCoingecko.page_loop c retries delay ps1 all_coins tr with
  | (Normal all_coins', tr') =>
    FetchCoingecko.page_loop c retries delay ps2 all_coins' tr'
  | stop => stop
  end.
Proof.
  revert all_coins tr. induction ps1 as [|p ps1 IH]; intros all_coins tr; [done|].
  simpl. destruct (FetchCoingecko.retry_loop _ _ _ _ _ _ _ _) as [[a|[]| |] tr']; auto.
Qed.

Lemma batch_page_loop_flaky c retries delay (n : nat → nat)
    (d : nat → list (gmap string json)) ps :
  NoDup ps →
  (∀ p, p ∈ ps → n p < retries ∧ fails_then_succeeds c p (n p) (d p)) →
  ∀ all_coins tr,
    (∀ p, p ∈ ps → p ∉ requests_of tr) →
    ∃ tr', FetchCoingecko.page_loop c retries delay ps all_coins tr
             = (Normal (all_coins ++ mjoin (d <$> ps)), tr')
           ∧ requests_of tr' = requests_of tr ++ requests_with n ps.
Proof.
  induction ps as [|p ps IH]; intros Hnodup Hflaky all_coins tr Hfresh.
  - exists tr. unfold requests_with. simpl. by rewrite !app_nil_r.
  - apply NoDup_cons in Hnodup as [Hp Hnodup].
    destruct (Hflaky p) as [Hn Hc]; [apply list_elem_of_here|].
    destruct (batch_retry_loop_flaky c p retries delay (d p) (n p) Hc Hn
                (S retries) 0 all_coins tr) as (tr1 & Hrun & Hreq1).
    { apply attempts_on_fresh, Hfresh, list_elem_of_here. }
    { lia. }
    { lia. }
    simpl. rewrite Hrun.
    destruct (IH Hnodup) with (all_coins := all_coins ++ d p) (tr := tr1)
      as (tr2 & Hrun2 & Hreq2).
    { intros q Hq. by apply Hflaky, list_elem_of_further. }
    { intros q Hq. rewrite Hreq1, Nat.sub_0_r. intros Hin.
      apply elem_of_app in Hin as [Hin|Hin].
      - by apply (Hfresh q); [apply list_elem_of_further|].
      - apply elem_of_replicate in Hin as [-> _]. done. }
    exists tr2. split.
    + rewrite Hrun2. by rewrite <- app_assoc.
    + rewrite Hreq2, Hreq1, Nat.sub_0_r. unfold requests_with. simpl.
      by rewrite <- app_assoc.
Qed.

Lemma batch_page_loop_fails_at c retries delay (n : nat → nat)
    (d : nat → list (gmap string json)) k pages :
  1 ≤ retries → 1 ≤ k ≤ pages →
  (∀ p, 1 ≤ p < k → n p < retries ∧ fails_then_succeeds c p (n p) (d p)) →
  always_fails c k →
  ∃ tr, FetchCoingecko.fetch_pages c pages retries delay = (Raising, tr)
        ∧ requests_of tr = requests_with n (seq 1 (k - 1)) ++ replicate retries k.
Proof.
  intros Hr Hk Hflaky Hfail. unfold FetchCoingecko.fetch_pages.
  rewrite (seq_split_at k pages Hk), batch_page_loop_app.
  destruct (batch_page_loop_flaky c retries delay n d (seq 1 (k - 1)))
    with (all_coins := @nil (gmap string json)) (tr := @nil event)
    as (tr1 & -> & Hreq1).
  { apply NoDup_seq. }
  { intros p Hp. apply Hflaky. apply elem_of_seq in Hp. lia. }
  { intros p _. simpl. apply not_elem_of_nil. }
  simpl.
  destruct (batch_retry_loop_always_fails c k retries delay Hfail (S retries) 0
              (mjoin (d <$> seq 1 (k - 1))) tr1) as (tr2 & -> & Hreq2); [lia..|].
  exists tr2. split; [done|]. by rewrite Hreq2, Hreq1, Nat.sub_0_r.
Qed.

(** ** Enough fuel: the fetch always returns or raises *)

Lemma app_page_loop_fuel c retries delay ps all_coins tr :
  (App.page_loop c retries delay ps all_coins tr).1 ≠ OutOfFuel.
Proof.
  revert all_coins tr. induction ps as [|p ps IH]; intros all_coins tr; [done|].
  simpl.
  pose proof (app_retry_loop_fuel c p retries delay (S retries) 0 all_coins tr) as H.
  destruct (App.retry_loop _ _ _ _ _ _ _ _) as [[a| | |] tr']; simpl in *;
    [apply IH|done|done|]. apply H. lia.
Qed.

Lemma batch_page_loop_fuel c retries delay ps all_coins tr :
  (FetchCoingecko.page_loop c retries delay ps all_coins tr).1 ≠ OutOfFuel.
Proof.
  revert all_coins tr. induction ps as [|p ps IH]; intros all_coins tr; [done|].
  simpl.
  pose proof (batch_retry_loop_fuel c p retries delay (S retries) 0 all_coins tr) as H.
  destruct (FetchCoingecko.retry_loop _ _ _ _ _ _ _ _) as [[a|[]| |] tr']; simpl in *;
    [apply IH|done|]. apply H. lia.
Qed.

Lemma app_fetch_market_data_total c pages retries delay :
  (App.fetch_market_data c pages retries delay).1 ≠ Diverge.
Proof.
  unfold App.fetch_market_data, App.fetch_pages.
  pose proof (app_page_loop_fuel c retries delay (seq 1 pages) [] []) as H.
  destruct (App.page_loop _ _ _ _ _ _) as [[[|coin a]| | |] tr']; done.
Qed.

Lemma batch_fetch_market_data_total c pages retries delay :
  (FetchCoingecko.fetch_market_data c pages retries delay).1 ≠ Diverge.
Proof.
  unfold FetchCoingecko.fetch_market_data, FetchCoingecko.fetch_pages.
  pose proof (batch_page_loop_fuel c retries delay (seq 1 pages) [] []) as H.
  destruct (FetchCoingecko.page_loop _ _ _ _ _ _) as [[a|[]| |] tr']; done.
Qed.

(** ** C4: the retry controller *)

(** C4. Let [retries >= 1]. (1) If the request for every page [p] fails
    [n p <= retries - 1] times and then succeeds with [d p] (in particular
    exactly [retries - 1] times), both variants leave the loop with the
    pages' data, after [n p + 1] requests for page [p]; the batch variant
    returns their six-key projections and the application their validated
    records. (2) If the pages before [k] behave so and the request for page
    [k] always fails, the fetch makes exactly [retries] requests for page [k],
    none after them, and fails as a whole: [app.py] returns [None] and
    [fetch_coingecko.py] re-raises the exception; the data of the earlier
    pages is not returned. *)
Theorem retry_controller (c : client) (pages retries : nat) (delay : Qc)
    (n : nat → nat) (d : nat → list (gmap string json)) :
  1 ≤ retries →
  ((∀ p, 1 ≤ p ≤ pages → n p < retries ∧ fails_then_succeeds c p (n p) (d p)) →
   let data := mjoin (d <$> seq 1 pages) in
   (∃ tr, App.fetch_pages c pages retries delay = (Normal data, tr)
          ∧ requests_of tr = requests_with n (seq 1 pages)
          ∧ (data ≠ [] →
             (App.fetch_market_data c pages retries delay).1
             = Return (Some (App.normalize data).1))) ∧
   (∃ tr, FetchCoingecko.fetch_pages c pages retries delay = (Normal data, tr)
          ∧ requests_of tr = requests_with n (seq 1 pages)
          ∧ FetchCoingecko.fetch_market_data c pages retries delay
            = (Return (FetchCoingecko.select <$> data), tr))) ∧
  (∀ k, 1 ≤ k ≤ pages →
     (∀ p, 1 ≤ p < k → n p < retries ∧ fails_then_succeeds c p (n p) (d p)) →
     always_fails c k →
     (∃ tr, App.fetch_market_data c pages retries delay = (Return None, tr)
            ∧ attempts_on k tr = retries
            ∧ requests_of tr
              = requests_with n (seq 1 (k - 1)) ++ replicate retries k) ∧
     (∃ tr, FetchCoingecko.fetch_market_data c pages retries delay = (Raise, tr)
            ∧ attempts_on k tr = retries
            ∧ requests_of tr
              = requests_with n (seq 1 (k - 1)) ++ replicate retries k)).
Proof.
  intros Hr. split.
  - intros Hflaky data. split.
    + destruct (app_page_loop_flaky c retries delay n d (seq 1 pages))
        with (all_coins := @nil (gmap string json)) (tr := @nil event)
        as (tr & Hrun & Hreq).
      { apply NoDup_seq. }
      { intros p Hp. apply Hflaky. apply elem_of_seq in Hp. lia. }
      { intros p _. apply not_elem_of_nil. }
      exists tr. split; [exact Hrun|]. split; [exact Hreq|].
      intros Hdata. unfold App.fetch_market_data, App.fetch_pages.
      rewrite Hrun. simpl. fold data. by destruct data.
    + destruct (batch_page_loop_flaky c retries delay n d (seq 1 pages))
        with (all_coins := @nil (gmap string json)) (tr := @nil event)
        as (tr & Hrun & Hreq).
      { apply NoDup_seq. }
      { intros p Hp. apply Hflaky. apply elem_of_seq in Hp. lia. }
      { intros p _. apply not_elem_of_nil. }
      exists tr. split; [exact Hrun|]. split; [exact Hreq|].
      unfold FetchCoingecko.fetch_market_data, FetchCoingecko.fetch_pages.
      by rewrite Hrun.
  - intros k Hk Hflaky Hfail.
    assert (∀ tr : trace,
      requests_of tr = requests_with n (seq 1 (k - 1)) ++ replicate retries k →
      attempts_on k tr = retries) as Hcount.
    { intros tr Hreq. unfold attempts_on.
      rewrite Hreq, filter_app, length_app, count_replicate, count_fresh; [done|].
      intros Hin. unfold requests_with in Hin.
      apply list_elem_of_join in Hin as (l & Hin & Hl).
      apply list_elem_of_fmap in Hl as (q & -> & Hq).
      apply elem_of_replicate_inv in Hin. apply elem_of_seq in Hq. lia. }
    split.
    + destruct (app_page_loop_fails_at c retries delay n d k pages)
        as (tr & Hrun & Hreq); [done..|].
      exists tr. unfold App.fetch_market_data. rewrite Hrun. auto.
    + destruct (batch_page_loop_fails_at c retries delay n d k pages)
        as (tr & Hrun & Hreq); [done..|].
      exists tr. unfold FetchCoingecko.fetch_market_data. rewrite Hrun. auto.
Qed.

Lemma flaky_client_spec n d page :
  fails_then_succeeds (flaky_client n d) page n (d page).
Proof.
  split; intros tr Htr; unfold flaky_client.
  - by replace (attempts_on page tr <? n) with true
      by (symmetry; apply Nat.ltb_lt; lia).
  - by replace (attempts_on page tr <? n) with false
      by (symmetry; apply Nat.ltb_ge; lia).
Qed.

Lemma failing_client_spec k n d :
  always_fails (failing_client k n d) k
  ∧ ∀ page, page ≠ k → fails_then_succeeds (failing_client k n d) page n (d page).
Proof.
  split.
  - intros tr. unfold failing_client. by rewrite Nat.eqb_refl.
  - intros page Hne.
    assert (∀ tr, failing_client k n d tr page = flaky_client n d tr page) as Heq.
    { intros tr. unfold failing_client.
      by replace (page =? k) with false by (symmetry; by apply Nat.eqb_neq). }
    destruct (flaky_client_spec n d page) as [Hfail Hok].
    split; intros tr Htr; rewrite Heq; auto.
Qed.

Lemma retry_controller_witness :
  (∃ tr, App.fetch_pages (flaky_client 2 one_per_page) 2 3 five
           = (Normal [eth; sol], tr)
         ∧ requests_of tr = [1; 1; 1; 2; 2; 2]) ∧
  (∃ tr, App.fetch_market_data (failing_client 2 2 one_per_page) 2 3 five
           = (Return None, tr)
         ∧ attempts_on 2 tr = 3) ∧
  (∃ tr, FetchCoingecko.fetch_market_data (failing_client 2 2 one_per_page) 2 3 five
           = (Raise, tr)
         ∧ requests_of tr = [1; 1; 1; 2; 2; 2]).
Proof.
  split; [|split].
  - destruct (retry_controller (flaky_client 2 one_per_page) 2 3 five
                (λ _, 2) one_per_page) as [H _]; [lia|].
    destruct H as [(tr & Hrun & Hreq & _) _].
    { intros p _. split; [lia|apply flaky_client_spec]. }
    exists tr. split; [exact Hrun|exact Hreq].
  - destruct (retry_controller (failing_client 2 2 one_per_page) 2 3 five
                (λ _, 2) one_per_page) as [_ H]; [lia|].
    destruct (H 2) as [(tr & Hrun & Hatt & _) _].
    { lia. }
    { intros p Hp. split; [lia|]. apply failing_client_spec. lia. }
    { apply failing_client_spec. }
    exists tr. split; [exact Hrun|exact Hatt].
  - destruct (retry_controller (failing_client 2 2 one_per_page) 2 3 five
                (λ _, 2) one_per_page) as [_ H]; [lia|].
    destruct (H 2) as [_ (tr & Hrun & _ & Hreq)].
    { lia. }
    { intros p Hp. split; [lia|]. apply failing_client_spec. lia. }
    { apply failing_client_spec. }
    exists tr. split; [exact Hrun|exact Hreq].
Defined.

(** ** C1: an empty page *)

(** C1, evaluated. Three pages are asked for; page 1 answers one record,
    page 2 answers the empty array, page 3 answers one record. Both variants
    go on to request page 3 and return its record as well: the [break] on
    an empty page leaves the retry loop only, not the loop over pages. *)
Theorem empty_page_does_not_stop_pagination :
  let app := App.fetch_market_data (scripted_client gap_pages) 3 3 five in
  let batch := FetchCoingecko.fetch_market_data (scripted_client gap_pages) 3 3 five in
  app.1 = Return (Some [App.select_required eth; App.select_required sol])
  ∧ requests_of app.2 = [1; 2; 3]
  ∧ batch.1 = Return [FetchCoingecko.select eth; FetchCoingecko.select sol]
  ∧ requests_of batch.2 = [1; 2; 3].
Proof. repeat split; reflexivity. Qed.

(** ** app.py: validation *)

Lemma missing_spec coin key :
  App.missing coin key = true ↔ absent_or_null coin key.
Proof.
  unfold App.missing, absent_or_null, dict_has, dict_get.
  destruct (coin !! key) as [v|] eqn:Hv.
  - rewrite bool_decide_true by eauto. simpl. destruct v; simpl; split;
      first [done | intros [?|?]; congruence | auto].
  - rewrite bool_decide_false by (by intros [? ?]). simpl. split; auto.
Qed.

Lemma missing_false coin key :
  App.missing coin key = false ↔ ∃ v, coin !! key = Some v ∧ v ≠ JNull.
Proof.
  rewrite <- not_true_iff_false, missing_spec. unfold absent_or_null.
  destruct (coin !! key) as [v|]; split.
  - intros H. exists v. split; [done|]. intros ->. auto.
  - intros (v' & [= <-] & Hne) [?|[= ->]]; done.
  - intros H. destruct H. auto.
  - by intros (v' & ? & _).
Qed.

Lemma select_required_lookup coin key :
  key ∈ App.required_keys →
  App.select_required coin !! key = Some (coin !!! key).
Proof.
  intros Hkey. unfold App.select_required, App.required_keys in *. simpl.
  repeat (apply elem_of_cons in Hkey as [->|Hkey]; [by simplify_map_eq|]).
  by apply elem_of_nil in Hkey.
Qed.

Lemma select_required_dom coin :
  dom (App.select_required coin) = list_to_set App.required_keys.
Proof.
  unfold App.select_required, App.required_keys. simpl.
  by rewrite !dom_insert_L, dom_empty_L.
Qed.

(** The accumulators only grow: a coin adds what it adds to empty ones. *)
Lemma process_coin_acc processed skipped coin :
  App.process_coin (processed, skipped) coin =
  (processed ++ (App.process_coin ([], []) coin).1,
   skipped ++ (App.process_coin ([], []) coin).2).
Proof.
  unfold App.process_coin.
  destruct (App.missing coin "market_cap_rank"); simpl; [by rewrite app_nil_r|].
  destruct (filter _ App.required_keys); simpl; by rewrite app_nil_r.
Qed.

#[local] Arguments App.process_coin : simpl never.

Lemma foldl_process_coin processed skipped all_coins :
  foldl App.process_coin (processed, skipped) all_coins =
  (processed ++ (App.normalize all_coins).1, skipped ++ (App.normalize all_coins).2).
Proof.
  unfold App.normalize. revert processed skipped.
  induction all_coins as [|coin l IH]; intros processed skipped.
  - simpl. by rewrite !app_nil_r.
  - cbn [foldl]. rewrite process_coin_acc.
    destruct (App.process_coin ([], []) coin) as [p s]. cbn [fst snd].
    rewrite IH, (IH p s). cbn [fst snd]. by rewrite !app_assoc.
Qed.

Lemma normalize_cons coin all_coins :
  App.normalize (coin :: all_coins) =
  ((App.process_coin ([], []) coin).1 ++ (App.normalize all_coins).1,
   (App.process_coin ([], []) coin).2 ++ (App.normalize all_coins).2).
Proof.
  unfold App.normalize at 1. simpl.
  destruct (App.process_coin ([], []) coin) as [p s] eqn:Hc.
  by rewrite foldl_process_coin.
Qed.

Lemma normalize_app l1 l2 :
  App.normalize (l1 ++ l2) =
  ((App.normalize l1).1 ++ (App.normalize l2).1,
   (App.normalize l1).2 ++ (App.normalize l2).2).
Proof.
  unfold App.normalize at 1. rewrite foldl_app.
  fold (App.normalize l1). destruct (App.normalize l1) as [p s].
  by rewrite foldl_process_coin.
Qed.

(** A coin is kept exactly when none of the six keys is missing. *)
Lemma process_coin_kept coin :
  (∀ key, key ∈ App.required_keys → App.missing coin key = false) →
  App.process_coin ([], []) coin = ([App.select_required coin], []).
Proof.
  intros Hall. unfold App.process_coin.
  rewrite (Hall "market_cap_rank") by in_list.
  assert (filter (λ key, App.missing coin key = true) App.required_keys = []) as ->;
    [|done].
  induction App.required_keys as [|k ks IH]; [done|].
  rewrite filter_cons_False.
  - apply IH. intros key Hkey. by apply Hall, list_elem_of_further.
  - rewrite (Hall k) by apply list_elem_of_here. done.
Qed.

Lemma process_coin_dropped coin key :
  key ∈ App.required_keys → App.missing coin key = true →
  (App.process_coin ([], []) coin).1 = []
  ∧ length (App.process_coin ([], []) coin).2 = 1.
Proof.
  intros Hkey Hmiss. unfold App.process_coin.
  destruct (App.missing coin "market_cap_rank"); [done|].
  destruct (filter _ App.required_keys) as [|k ks] eqn:Hf; [|done].
  assert (key ∈ filter (λ key, App.missing coin key = true) App.required_keys)
    as Hin by (by apply list_elem_of_filter).
  rewrite Hf in Hin. by apply elem_of_nil in Hin.
Qed.

Lemma process_coin_cases coin :
  (∀ key, key ∈ App.required_keys → App.missing coin key = false)
  ∨ (∃ key, key ∈ App.required_keys ∧ App.missing coin key = true).
Proof.
  induction App.required_keys as [|k ks IH].
  - left. intros key Hkey. by apply elem_of_nil in Hkey.
  - destruct (App.missing coin k) eqn:Hk.
    + right. exists k. split; [apply list_elem_of_here|done].
    + destruct IH as [IH|(key & Hkey & Hmiss)].
      * left. intros key Hkey. apply elem_of_cons in Hkey as [->|Hkey]; auto.
      * right. exists key. split; [by apply list_elem_of_further|done].
Qed.

Lemma select_required_complete coin :
  (∀ key, key ∈ App.required_keys → App.missing coin key = false) →
  complete (App.select_required coin).
Proof.
  intros Hall. split; [apply select_required_dom|].
  intros key Hkey. rewrite select_required_lookup by done.
  apply Hall, missing_false in Hkey as (v & Hv & Hne).
  exists v. split; [|done]. f_equal. by apply lookup_total_correct.
Qed.

Lemma normalize_complete all_coins :
  Forall complete (App.normalize all_coins).1.
Proof.
  induction all_coins as [|coin l IH]; [by constructor|].
  rewrite normalize_cons. simpl. apply Forall_app. split; [|done].
  destruct (process_coin_cases coin) as [Hall|(key & Hkey & Hmiss)].
  - rewrite process_coin_kept by done. simpl.
    constructor; [by apply select_required_complete|constructor].
  - by destruct (process_coin_dropped coin key Hkey Hmiss) as [-> _].
Qed.

Lemma fetch_market_data_normalizes c pages retries delay all_coins tr :
  App.fetch_pages c pages retries delay = (Normal all_coins, tr) →
  all_coins ≠ [] →
  App.fetch_market_data c pages retries delay
  = (Return (Some (App.normalize all_coins).1), tr).
Proof.
  intros Hrun Hne. unfold App.fetch_market_data. rewrite Hrun.
  by destruct all_coins.
Qed.

Lemma fetch_market_data_inv c pages retries delay out tr :
  App.fetch_market_data c pages retries delay = (Return (Some out), tr) →
  ∃ all_coins, App.fetch_pages c pages retries delay = (Normal all_coins, tr)
               ∧ out = (App.normalize all_coins).1.
Proof.
  unfold App.fetch_market_data.
  pose proof (app_page_loop_fuel c retries delay (seq 1 pages) [] []) as Hfuel.
  unfold App.fetch_pages in *.
  destruct (App.page_loop _ _ _ _ _ _) as [[[|coin l]|v| |] tr'] eqn:Hrun;
    simpl; intros [= Hout Htr]; subst.
  - by exists (coin :: l).
  - clear Hfuel. revert Hrun. generalize (@nil (gmap string json)) (@nil event).
    induction (seq 1 pages) as [|p ps IH]; intros all_coins tr0; [done|].
    simpl. destruct (App.retry_loop _ _ _ _ _ _ _ _) as [[a|v| |] tr1] eqn:Hloop;
      [apply IH| |done..].
    intros [= -> ->]. exfalso. revert Hloop.
    generalize 0 tr0. induction (S retries) as [|fuel IHf]; intros attempt tr2;
      [done|].
    unfold App.retry_loop; fold App.retry_loop.
    destruct (attempt <? retries); [|done].
    destruct (c tr2 p) as [[|? ?]|]; [done..|].
    destruct (attempt + 1 <? retries); [apply IHf|done].
Qed.

(** ** C2: only complete records are surfaced *)

(** C2, as it holds. In [app.py], every record that validation emits has
    all six fields present and non-null; a record with any of the six
    absent or null contributes nothing to the output; and so every record
    [fetch_market_data] returns is complete. *)
Theorem app_emits_only_complete_records :
  emits_only_complete_records (λ all_coins, (App.normalize all_coins).1) ∧
  (∀ l1 coin l2 key,
     key ∈ App.required_keys → absent_or_null coin key →
     (App.normalize (l1 ++ coin :: l2)).1
     = (App.normalize l1).1 ++ (App.normalize l2).1) ∧
  (∀ c pages retries delay out tr,
     App.fetch_market_data c pages retries delay = (Return (Some out), tr) →
     Forall complete out).
Proof.
  split; [|split].
  - intros all_coins rec Hrec.
    by apply (proj1 (Forall_forall _ _) (normalize_complete all_coins)).
  - intros l1 coin l2 key Hkey Hmiss. apply missing_spec in Hmiss.
    rewrite normalize_app, normalize_cons. simpl.
    by destruct (process_coin_dropped coin key Hkey Hmiss) as [-> _].
  - intros c pages retries delay out tr Hrun.
    apply fetch_market_data_inv in Hrun as (all_coins & _ & ->).
    apply normalize_complete.
Qed.

Lemma app_emits_only_complete_records_witness :
  (App.normalize ([eth] ++ no_cap :: [sol])).1
  = (App.normalize [eth]).1 ++ (App.normalize [sol]).1
  ∧ Forall complete (App.normalize [eth; no_cap; sol]).1.
Proof.
  destruct app_emits_only_complete_records as (Hall & Hdrop & _). split.
  - apply (Hdrop [eth] no_cap [sol] "market_cap").
    + in_list.
    + left. reflexivity.
  - apply Forall_forall. intros rec Hrec. by apply (Hall [eth; no_cap; sol]).
Defined.

(** C2, as stated, fails for the batch variant: [fetch_coingecko.py] keeps a
    record without market cap and emits it with [market_cap] null. *)
Lemma batch_emits_partial_record :
  (FetchCoingecko.fetch_market_data (scripted_client (λ _, [no_cap])) 1 3 five).1
  = Return [FetchCoingecko.select no_cap]
  ∧ FetchCoingecko.select no_cap !! "market_cap" = Some JNull
  ∧ ¬ complete (FetchCoingecko.select no_cap).
Proof.
  assert (FetchCoingecko.select no_cap !! "market_cap" = Some JNull) as Hnull
    by reflexivity.
  split; [reflexivity|]. split; [exact Hnull|].
  intros [_ Hall]. destruct (Hall "market_cap") as (v & Hv & Hne); [in_list|].
  rewrite Hnull in Hv. congruence.
Qed.

(** ** C6: a record without rank *)

(** C6. A raw record whose [market_cap_rank] is absent or null adds no
    record to the output of validation, whatever its other fields, and adds
    exactly one entry to the skip log; [fetch_market_data] returns the
    records of the others. *)
Theorem null_rank_is_skipped (l1 l2 : list (gmap string json))
    (coin : gmap string json) :
  absent_or_null coin "market_cap_rank" →
  App.normalize (l1 ++ coin :: l2)
  = ((App.normalize l1).1 ++ (App.normalize l2).1,
     (App.normalize l1).2
       ++ App.MissingRank (dict_get coin "id" (JStr "Unknown ID"))
       :: (App.normalize l2).2)
  ∧ ∀ c pages retries delay tr,
      App.fetch_pages c pages retries delay = (Normal (l1 ++ coin :: l2), tr) →
      App.fetch_market_data c pages retries delay
      = (Return (Some ((App.normalize l1).1 ++ (App.normalize l2).1)), tr).
Proof.
  intros Hnull. apply missing_spec in Hnull.
  assert (App.normalize (l1 ++ coin :: l2)
          = ((App.normalize l1).1 ++ (App.normalize l2).1,
             (App.normalize l1).2
               ++ App.MissingRank (dict_get coin "id" (JStr "Unknown ID"))
               :: (App.normalize l2).2)) as Hnorm.
  { rewrite normalize_app, normalize_cons.
    unfold App.process_coin. rewrite Hnull. reflexivity. }
  split; [done|].
  intros c pages retries delay tr Hrun.
  rewrite (fetch_market_data_normalizes _ _ _ _ _ _ Hrun), Hnorm; [done|].
  by destruct l1.
Qed.

Lemma null_rank_is_skipped_witness :
  App.normalize ([eth] ++ null_rank :: [])
  = ((App.normalize [eth]).1 ++ (App.normalize []).1,
     (App.normalize [eth]).2
       ++ App.MissingRank (dict_get null_rank "id" (JStr "Unknown ID"))
       :: (App.normalize []).2).
Proof.
  apply (null_rank_is_skipped [eth] [] null_rank).
  right. reflexivity.
Defined.

(** ** C9: the records of the batch variant *)

Lemma select_lookup coin key :
  key ∈ FetchCoingecko.selected_keys →
  FetchCoingecko.select coin !! key = Some (dict_get coin key JNull).
Proof.
  intros Hkey. unfold FetchCoingecko.select, FetchCoingecko.selected_keys in *.
  simpl.
  repeat (apply elem_of_cons in Hkey as [->|Hkey]; [by simplify_map_eq|]).
  by apply elem_of_nil in Hkey.
Qed.

Lemma select_dom coin :
  dom (FetchCoingecko.select coin) = list_to_set FetchCoingecko.selected_keys.
Proof.
  unfold FetchCoingecko.select, FetchCoingecko.selected_keys. simpl.
  by rewrite !dom_insert_L, dom_empty_L.
Qed.

(** C9. In [fetch_coingecko.py] every returned record has exactly the six
    keys; each key holds the source value, or null when the source record
    has no such key; and the result is the projection of every fetched
    record, in order: none is dropped. *)
Theorem batch_records_have_six_keys :
  (∀ coin,
     dom (FetchCoingecko.select coin) = list_to_set FetchCoingecko.selected_keys
     ∧ ∀ key, key ∈ FetchCoingecko.selected_keys →
         (∀ v, coin !! key = Some v → FetchCoingecko.select coin !! key = Some v)
         ∧ (coin !! key = None → FetchCoingecko.select coin !! key = Some JNull)) ∧
  (∀ c pages retries delay out tr,
     FetchCoingecko.fetch_market_data c pages retries delay = (Return out, tr) →
     ∃ all_coins,
       FetchCoingecko.fetch_pages c pages retries delay = (Normal all_coins, tr)
       ∧ out = FetchCoingecko.select <$> all_coins
       ∧ length out = length all_coins
       ∧ Forall (λ rec, dom rec = list_to_set FetchCoingecko.selected_keys) out).
Proof.
  split.
  - intros coin. split; [apply select_dom|].
    intros key Hkey. rewrite select_lookup by done. unfold dict_get.
    split; [by intros v ->|by intros ->].
  - intros c pages retries delay out tr.
    unfold FetchCoingecko.fetch_market_data.
    destruct (FetchCoingecko.fetch_pages c pages retries delay)
      as [[all_coins|[]| |] tr'] eqn:Hrun; intros [= <- <-].
    exists all_coins. split; [done|]. split; [done|].
    split; [by rewrite length_fmap|].
    apply Forall_fmap, Forall_forall. intros coin _. apply select_dom.
Qed.

Lemma batch_records_have_six_keys_witness :
  ∃ all_coins,
    FetchCoingecko.fetch_pages (scripted_client (λ _, [no_cap])) 1 3 five
    = (Normal all_coins,
       (FetchCoingecko.fetch_market_data (scripted_client (λ _, [no_cap])) 1 3 five).2)
    ∧ [FetchCoingecko.select no_cap] = FetchCoingecko.select <$> all_coins.
Proof.
  destruct batch_records_have_six_keys as [_ H].
  destruct (H (scripted_client (λ _, [no_cap])) 1 3 five
              [FetchCoingecko.select no_cap]
              (FetchCoingecko.fetch_market_data
                 (scripted_client (λ _, [no_cap])) 1 3 five).2)
    as (all_coins & Hrun & Hout & _); [reflexivity|].
  exists all_coins. split; [exact Hrun|exact Hout].
Defined.

(** ** C10: the CSV snapshot *)

Lemma gt_50_false v :
  Fetcher.gt_50 v = inr false →
  match v with
  | JNum q => (q <= Qc_of_Z 50)%Qc
  | JBool _ => True
  | _ => False
  end.
Proof.
  destruct v; simpl; try done. intros [= Hq].
  apply bool_decide_eq_false in Hq. by apply Qcnot_lt_le.
Qed.

Lemma in_stables_false v :
  Fetcher.in_stables v = inr false → ∀ s, v = JStr s → s ∉ Fetcher.EXCLUDE_STABLES.
Proof.
  intros Hv s ->. simpl in Hv. injection Hv as Hv.
  by apply bool_decide_eq_false in Hv.
Qed.

Lemma item_step_append day item r :
  Fetcher.item_step day item = inr (Fetcher.Append r) → row_ok r.
Proof.
  unfold Fetcher.item_step, mbind, Fetcher.exn_bind, Fetcher.item_get.
  destruct (item !! "rank") as [rk|]; [|done].
  destruct (Fetcher.gt_50 rk) as [|[]] eqn:Hrk; [done..|].
  destruct (item !! "symbol") as [sy|]; [|done].
  destruct (Fetcher.in_stables sy) as [|[]] eqn:Hsy; [done..|].
  destruct (item !! "quotes") as [quotes|]; [|done].
  destruct (Fetcher.subscript quotes "USD") as [|usd]; [done|].
  destruct (Fetcher.subscript usd "price") as [|price]; [done|].
  destruct (Fetcher.subscript usd "market_cap") as [|cap]; [done|].
  intros [= <-]. split; simpl.
  - by apply gt_50_false.
  - by apply in_stables_false.
Qed.

Lemma item_step_break day item q :
  item !! "rank" = Some (JNum q) → (Qc_of_Z 50 < q)%Qc →
  Fetcher.item_step day item = inr Fetcher.Break.
Proof.
  intros Hrank Hq.
  unfold Fetcher.item_step, mbind, Fetcher.exn_bind, Fetcher.item_get.
  rewrite Hrank. simpl. by rewrite bool_decide_true.
Qed.

#[local] Arguments Fetcher.item_step : simpl never.

Lemma process_items_ok day items rows :
  Forall row_ok rows → Forall row_ok (Fetcher.process_items day items rows).1.
Proof.
  revert rows. induction items as [|item items IH]; intros rows Hrows; [done|].
  simpl. destruct (Fetcher.item_step day item) as [e|[| |r]] eqn:Hstep; simpl; auto.
  apply IH, Forall_app. split; [done|].
  constructor; [by eapply item_step_append|constructor].
Qed.

Lemma day_loop_ok api i days rows :
  Forall row_ok rows → Forall row_ok (Fetcher.day_loop api i days rows).1.
Proof.
  revert i rows. induction days as [|day days IH]; intros i rows Hrows; [done|].
  simpl. destruct (api i) as [items|]; [|done].
  pose proof (process_items_ok day items rows Hrows) as Hok.
  destruct (Fetcher.process_items day items rows) as [rows' [e|]]; [done|].
  by apply IH.
Qed.

Lemma process_items_stops day pre x post rows q :
  x !! "rank" = Some (JNum q) → (Qc_of_Z 50 < q)%Qc →
  Fetcher.process_items day (pre ++ x :: post) rows
  = Fetcher.process_items day pre rows.
Proof.
  intros Hrank Hq. revert rows.
  induction pre as [|item pre IH]; intros rows; simpl.
  - by rewrite (item_step_break day x q).
  - destruct (Fetcher.item_step day item) as [e|[| |r]]; auto.
Qed.

(** C10. Every row the CSV script appends has a rank not above 50 and a
    symbol that is none of USDT, USDC, DAI, TUSD, FDUSD as written; a
    lower-case [usdt] is not filtered. The items of a response after the
    first one whose rank exceeds 50 are never looked at: the rows (and the
    way the loop ends) are those of the items before it. *)
Theorem snapshot_rows_top50_without_stables :
  (∀ api today, Forall row_ok (Fetcher.main api today).1) ∧
  (∀ day pre x post rows q,
     x !! "rank" = Some (JNum q) → (Qc_of_Z 50 < q)%Qc →
     Fetcher.process_items day (pre ++ x :: post) rows
     = Fetcher.process_items day pre rows) ∧
  (Fetcher.process_items 0 [ticker 3 "usdt" 1 9; ticker 4 "USDT" 1 9] []).1
  = [{| Fetcher.snapshot_date := 0;
        Fetcher.rank := JNum (Qc_of_Z 3);
        Fetcher.symbol := JStr "usdt";
        Fetcher.price_usd := JNum (Qc_of_Z 1);
        Fetcher.market_cap_usd := JNum (Qc_of_Z 9) |}].
Proof.
  split; [|split].
  - intros api today. by apply day_loop_ok.
  - apply process_items_stops.
  - reflexivity.
Qed.

Lemma snapshot_rows_top50_without_stables_witness :
  Fetcher.process_items 0
    ([ticker 1 "BTC" 5 9] ++ ticker 51 "XYZ" 1 1 :: [ticker 2 "ETH" 3 4]) []
  = Fetcher.process_items 0 [ticker 1 "BTC" 5 9] [].
Proof.
  destruct snapshot_rows_top50_without_stables as (_ & Hstop & _).
  apply (Hstop 0%Z [ticker 1 "BTC" 5 9] (ticker 51 "XYZ" 1 1) [ticker 2 "ETH" 3 4]
           [] (Qc_of_Z 51)); reflexivity.
Defined.

(** ** The allocation calculator *)

(** The block computes weights exactly over [altcoin_basket]. *)
Lemma calculate_allocation_cases sort df p b a s n :
  let basket := App.altcoin_basket sort df s n in
  let total := App.sum_market_cap basket in
  let target_btc := (p * (b / App.hundred))%Qc in
  let target_alt := (p * (a / App.hundred))%Qc in
  match App.calculate_allocation sort df p b a s n with
  | App.NoAltcoinsRemaining =>
    App.filter_excluded (App.excluded_tokens s) (sort df) = []
  | App.CouldNotSelect _ => basket = []
  | App.ZeroMarketCap tb ta =>
    basket ≠ [] ∧ ¬ (0 < total)%Qc ∧ tb = target_btc ∧ ta = target_alt
  | App.Allocation tb ta rows tot _ =>
    basket ≠ [] ∧ (0 < total)%Qc ∧ tb = target_btc ∧ ta = target_alt
    ∧ tot = total ∧ rows = App.display_rows basket total target_alt
  end.
Proof.
  unfold App.calculate_allocation, App.altcoin_basket.
  destruct (App.filter_excluded _ (sort df)) as [|r0 filtered] eqn:Hf; [done|].
  destruct (App.head n (r0 :: filtered)) as [|r1 basket] eqn:Hb; [done|].
  simpl. case_bool_decide; simpl; repeat split; done.
Qed.

(** ** Sorting by rank *)

Lemma insert_before_perm x l : insert_before x l ≡ₚ x :: l.
Proof.
  induction l as [|y l IH]; simpl; [done|].
  case_bool_decide; [done|]. by rewrite IH, Permutation_swap.
Qed.

Lemma insert_after_perm x l : insert_after x l ≡ₚ x :: l.
Proof.
  induction l as [|y l IH]; simpl; [done|].
  case_bool_decide; [done|]. by rewrite IH, Permutation_swap.
Qed.

Lemma insert_before_sorted x l :
  StronglySorted App.rank_le l → StronglySorted App.rank_le (insert_before x l).
Proof.
  induction 1 as [|y l Hl IH Hy]; simpl.
  - repeat constructor.
  - case_bool_decide as Hxy.
    + constructor; [by constructor|]. constructor; [done|].
      eapply Forall_impl; [exact Hy|]. unfold App.rank_le. intros z Hz. lia.
    + constructor; [done|]. rewrite insert_before_perm.
      constructor; [unfold App.rank_le; lia|done].
Qed.

Lemma insert_after_sorted x l :
  StronglySorted App.rank_le l → StronglySorted App.rank_le (insert_after x l).
Proof.
  induction 1 as [|y l Hl IH Hy]; simpl.
  - repeat constructor.
  - case_bool_decide as Hxy.
    + constructor; [by constructor|]. constructor; [unfold App.rank_le; lia|].
      eapply Forall_impl; [exact Hy|]. unfold App.rank_le. intros z Hz. lia.
    + constructor; [done|]. rewrite insert_after_perm.
      constructor; [unfold App.rank_le; lia|done].
Qed.

Lemma stable_sort_sorts : App.sorts_by_rank stable_sort_by_rank.
Proof.
  intros df. induction df as [|x df [IHp IHs]]; simpl.
  - split; [done|constructor].
  - split; [by rewrite insert_before_perm, <- IHp|by apply insert_before_sorted].
Qed.

Lemma reversing_sort_sorts : App.sorts_by_rank reversing_sort_by_rank.
Proof.
  intros df. induction df as [|x df [IHp IHs]]; simpl.
  - split; [done|constructor].
  - split; [by rewrite insert_after_perm, <- IHp|by apply insert_after_sorted].
Qed.

Lemma insert_before_filter k x l :
  filter (λ r, App.market_cap_rank r = k) (insert_before x l)
  = filter (λ r, App.market_cap_rank r = k) (x :: l).
Proof.
  induction l as [|y l IH]; simpl; [done|].
  case_bool_decide as Hxy; [done|].
  destruct (decide (App.market_cap_rank y = k)) as [Hy|Hy].
  - rewrite (filter_cons_True _ y) by done. rewrite IH.
    rewrite (filter_cons_False _ x) by lia.
    rewrite (filter_cons_False _ x) by lia.
    by rewrite (filter_cons_True _ y) by done.
  - rewrite (filter_cons_False _ y) by done. rewrite IH.
    destruct (decide (App.market_cap_rank x = k)) as [Hx|Hx].
    + rewrite !(filter_cons_True _ x) by done.
      by rewrite (filter_cons_False _ y) by done.
    + rewrite !(filter_cons_False _ x) by done.
      by rewrite (filter_cons_False _ y) by done.
Qed.

(** The sort of the specification's words is stable. *)
Lemma stable_sort_stable df : stable df (stable_sort_by_rank df).
Proof.
  intros k. induction df as [|x df IH]; [done|].
  simpl. rewrite insert_before_filter.
  destruct (decide (App.market_cap_rank x = k)) as [Hx|Hx].
  - rewrite !(filter_cons_True _ x) by done. by rewrite IH.
  - rewrite !(filter_cons_False _ x) by done. by rewrite IH.
Qed.

Lemma NoDup_fmap_eq {A B} (f : A → B) (l : list A) x y :
  NoDup (f <$> l) → x ∈ l → y ∈ l → f x = f y → x = y.
Proof.
  induction l as [|z l IH]; intros Hnd Hx Hy Hf.
  - by apply elem_of_nil in Hx.
  - rewrite fmap_cons in Hnd. apply NoDup_cons in Hnd as [Hz Hnd].
    apply elem_of_cons in Hx as [->|Hx]; apply elem_of_cons in Hy as [->|Hy].
    + done.
    + exfalso. apply Hz. rewrite Hf. by apply list_elem_of_fmap_2.
    + exfalso. apply Hz. rewrite <- Hf. by apply list_elem_of_fmap_2.
    + by apply IH.
Qed.

(** With pairwise distinct ranks there is one way to sort by rank. *)
Lemma sorted_by_rank_unique df l1 l2 :
  NoDup (App.market_cap_rank <$> df) →
  df ≡ₚ l1 → df ≡ₚ l2 →
  StronglySorted App.rank_le l1 → StronglySorted App.rank_le l2 →
  l1 = l2.
Proof.
  intros Hnd Hp1 Hp2 Hs1 Hs2.
  apply (StronglySorted_unique_strong App.rank_le); [|done|done|].
  - intros x1 x2 Hx1 Hx2 H12 H21. unfold App.rank_le in *.
    apply (NoDup_fmap_eq App.market_cap_rank df); [done| | |lia].
    + by rewrite Hp1.
    + by rewrite Hp2.
  - by rewrite <- Hp1.
Qed.

Lemma StronglySorted_sublist {A} (R : relation A) l1 l2 :
  l1 `sublist_of` l2 → StronglySorted R l2 → StronglySorted R l1.
Proof.
  induction 1 as [|x l1 l2 Hsub IH|x l1 l2 Hsub IH]; intros Hs; [done| |].
  - apply StronglySorted_cons in Hs as [Hx Hs].
    constructor; [by apply IH|]. apply Forall_forall. intros y Hy.
    apply (proj1 (Forall_forall _ _) Hx). by eapply elem_of_sublist.
  - apply StronglySorted_cons in Hs as [_ Hs]. by apply IH.
Qed.

Lemma altcoin_basket_sublist sort df s n :
  App.altcoin_basket sort df s n `sublist_of` sort df.
Proof.
  unfold App.altcoin_basket, App.head, App.filter_excluded.
  etrans; [apply sublist_take|apply sublist_filter].
Qed.

(** ** C5: the sort by rank *)

Lemma StronglySorted_lookup_lt {A} (R : relation A) (l : list A) i j x y :
  StronglySorted R l → l !! i = Some x → l !! j = Some y → i < j → R x y.
Proof.
  intros Hl. revert i j. induction Hl as [|z l Hl IH Hz]; intros i j Hi Hj Hij.
  - by rewrite lookup_nil in Hi.
  - destruct j as [|j]; [lia|]. destruct i as [|i].
    + injection Hi as ->. simpl in Hj.
      apply (proj1 (Forall_forall _ _) Hz). by eapply list_elem_of_lookup_2.
    + simpl in Hi, Hj. apply (IH i j); [done|done|lia].
Qed.

(** Two frames sorted by rank that hold, rank by rank, the same records in
    the same order are the same frame. *)
Lemma sorted_with_equal_ties l1 l2 :
  StronglySorted App.rank_le l1 → StronglySorted App.rank_le l2 →
  (∀ k : Z, filter (λ r, App.market_cap_rank r = k) l1
            = filter (λ r, App.market_cap_rank r = k) l2) →
  l1 = l2.
Proof.
  intros Hl1. revert l2.
  induction Hl1 as [|x l1 Hl1 IH Hx]; intros l2 Hl2 Hties.
  - destruct l2 as [|y l2]; [done|].
    specialize (Hties (App.market_cap_rank y)).
    by rewrite filter_nil, filter_cons_True in Hties.
  - destruct Hl2 as [|y l2 Hl2 Hy].
    { specialize (Hties (App.market_cap_rank x)).
      by rewrite filter_nil, filter_cons_True in Hties. }
    assert (App.market_cap_rank y = App.market_cap_rank x) as Hrank.
    { assert (x ∈ y :: l2) as Hxin.
      { pose proof (Hties (App.market_cap_rank x)) as Hk.
        rewrite (filter_cons_True _ x) in Hk by done.
        assert (x ∈ filter (λ r, App.market_cap_rank r = App.market_cap_rank x)
                    (y :: l2)) as Hin by (rewrite <- Hk; apply list_elem_of_here).
        by apply list_elem_of_filter in Hin as [_ Hin]. }
      assert (y ∈ x :: l1) as Hyin.
      { pose proof (Hties (App.market_cap_rank y)) as Hk.
        rewrite (filter_cons_True _ y) in Hk by done.
        assert (y ∈ filter (λ r, App.market_cap_rank r = App.market_cap_rank y)
                    (x :: l1)) as Hin by (rewrite Hk; apply list_elem_of_here).
        by apply list_elem_of_filter in Hin as [_ Hin]. }
      apply elem_of_cons in Hxin as [->|Hxin]; [done|].
      apply elem_of_cons in Hyin as [->|Hyin]; [done|].
      pose proof (proj1 (Forall_forall _ _) Hx y Hyin) as Hxy.
      pose proof (proj1 (Forall_forall _ _) Hy x Hxin) as Hyx.
      unfold App.rank_le in *. lia. }
    pose proof (Hties (App.market_cap_rank x)) as Hk.
    rewrite (filter_cons_True _ x), (filter_cons_True _ y) in Hk by done.
    injection Hk as -> Hk. f_equal. apply IH; [done|].
    intros k. destruct (decide (App.market_cap_rank y = k)) as [<-|Hne];
      [done|].
    pose proof (Hties k) as Hk'.
    by rewrite !(filter_cons_False _ y) in Hk' by done.
Qed.

Lemma stable_iff_stable_sort (sort : list App.row → list App.row) df :
  App.sorts_by_rank sort →
  stable df (sort df) ↔ sort df = stable_sort_by_rank df.
Proof.
  intros Hsort. split.
  - intros Hstable. apply sorted_with_equal_ties.
    + apply Hsort.
    + apply stable_sort_sorts.
    + intros k. rewrite (Hstable k). symmetry. apply stable_sort_stable.
  - intros ->. apply stable_sort_stable.
Qed.

(** C5, as it holds. The calculator sorts with [sort_values] at pandas'
    default [kind='quicksort'], of which the documentation promises the
    order of the keys and no stability. Whatever such a sort does with ties:
    the basket ascends by rank, a record of smaller rank stands above one of
    larger rank, and ties are in input order exactly when the sorted frame
    is the stable sort of the input. With pairwise distinct ranks that is
    the case, and the block then computes what it would compute after a
    stable sort. *)
Theorem sort_by_rank_fixes_order_up_to_ties
    (sort : list App.row → list App.row) (df : list App.row)
    (p b a : Qc) (s : string) (n : nat) :
  App.sorts_by_rank sort →
  let basket := App.altcoin_basket sort df s n in
  StronglySorted App.rank_le basket
  ∧ (∀ i j x y,
       basket !! i = Some x → basket !! j = Some y →
       (App.market_cap_rank x < App.market_cap_rank y)%Z → i < j)
  ∧ (stable df (sort df) ↔ sort df = stable_sort_by_rank df)
  ∧ (NoDup (App.market_cap_rank <$> df) →
     stable df (sort df)
     ∧ App.calculate_allocation sort df p b a s n
       = App.calculate_allocation stable_sort_by_rank df p b a s n).
Proof.
  intros Hsort basket.
  assert (StronglySorted App.rank_le basket) as Hbasket.
  { apply (StronglySorted_sublist _ _ (sort df)); [apply altcoin_basket_sublist|].
    apply Hsort. }
  split; [exact Hbasket|]. split; [|split; [by apply stable_iff_stable_sort|]].
  - intros i j x y Hi Hj Hlt.
    destruct (decide (i < j)) as [|Hge]; [done|]. exfalso.
    destruct (decide (i = j)) as [->|Hne].
    + rewrite Hi in Hj. injection Hj as ->. lia.
    + assert (j < i) as Hji by lia.
      pose proof (StronglySorted_lookup_lt _ _ _ _ _ _ Hbasket Hj Hi Hji) as Hle.
      unfold App.rank_le in Hle. lia.
  - intros Hnd.
    assert (sort df = stable_sort_by_rank df) as Heq.
    { destruct (Hsort df) as [Hperm Hsorted].
      destruct (stable_sort_sorts df) as [Hperm' Hsorted'].
      by apply (sorted_by_rank_unique df). }
    split; [by apply stable_iff_stable_sort|].
    change (App.calculate_allocation (λ l, l) (sort df) p b a s n
            = App.calculate_allocation (λ l, l) (stable_sort_by_rank df) p b a s n).
    by rewrite Heq.
Qed.

Lemma sort_by_rank_fixes_order_up_to_ties_witness :
  StronglySorted App.rank_le
    (App.altcoin_basket reversing_sort_by_rank sample_df "usdt" 3)
  ∧ App.calculate_allocation reversing_sort_by_rank sample_df
      (Qc_of_Z 100000) (Qc_of_Z 150) (Qc_of_Z 25) "usdt" 3
    = App.calculate_allocation stable_sort_by_rank sample_df
        (Qc_of_Z 100000) (Qc_of_Z 150) (Qc_of_Z 25) "usdt" 3.
Proof.
  destruct (sort_by_rank_fixes_order_up_to_ties reversing_sort_by_rank sample_df
              (Qc_of_Z 100000) (Qc_of_Z 150) (Qc_of_Z 25) "usdt" 3)
    as (Hsorted & _ & _ & Hdistinct); [exact reversing_sort_sorts|].
  split; [exact Hsorted|]. apply Hdistinct.
  simpl. repeat (constructor; [rewrite ?elem_of_cons, elem_of_nil; intuition lia|]).
  constructor.
Defined.

(** Two short frames. With at most seventeen rows nothing is split and the
    insertion sort does all the work: the ties of [tied_df] stay as they
    are. *)
Lemma quicksort_on_short_frames :
  quicksort_by_rank tied_df = Some tied_df
  ∧ quicksort_by_rank sample_df = Some (stable_sort_by_rank sample_df).
Proof. split; by vm_compute. Qed.

(** C5, as stated, fails. [tied_frame] has forty rows and eight of each
    rank, more than the seventeen that the quicksort behind the default
    [sort_values] sorts by insertion. The frame comes out ascending by rank
    with its ties reordered: the rows of rank 1, in the input at the
    positions 0, 5, 10, 15, 20, 25, 30, 35, come out as 0, 20, 15, 30, 10,
    25, 35, 5. *)
Lemma default_sort_need_not_be_stable :
  Numpy.argsort (App.market_cap_rank <$> tied_frame)
  = Some [0; 20; 15; 30; 10; 25; 35; 5; 23; 8; 33; 28; 13; 3; 38; 18; 6; 21;
          1; 36; 16; 26; 11; 31; 34; 29; 19; 14; 9; 4; 24; 39; 27; 22; 17;
          12; 32; 7; 2; 37]
  ∧ length (default [] (quicksort_by_rank tied_frame)) = 40
  ∧ (App.market_cap_rank <$> default [] (quicksort_by_rank tied_frame)
     = App.market_cap_rank <$> stable_sort_by_rank tied_frame)
  ∧ (App.market_cap <$> take 8 (default [] (quicksort_by_rank tied_frame))
     = Qc_of_Z <$> [0; 20; 15; 30; 10; 25; 35; 5]%Z)
  ∧ (App.market_cap <$> take 8 (stable_sort_by_rank tied_frame)
     = Qc_of_Z <$> [0; 5; 10; 15; 20; 25; 30; 35]%Z)
  ∧ ¬ stable tied_frame (default [] (quicksort_by_rank tied_frame)).
Proof.
  do 5 (split; [by vm_compute|]).
  intros Hstable. specialize (Hstable 1%Z).
  vm_compute in Hstable. discriminate Hstable.
Qed.

(** ** C8: the two targets *)

(** C8, as it holds. When the block reaches the targets (the basket is
    non-empty) it computes [target_btc_usd = portfolio * (btc_weight / 100)] and
    [target_basket_usd = portfolio * (basket_weight / 100)]; whatever the
    records, the exclusions and N, two runs with the same portfolio and
    weights that compute targets compute the same ones; and for
    100000, 150 and 25 they are 150000 and 25000. *)
Theorem targets_do_not_depend_on_basket :
  (∀ sort df p b a s n,
     App.altcoin_basket sort df s n ≠ [] →
     App.targets (App.calculate_allocation sort df p b a s n)
     = Some ((p * (b / App.hundred))%Qc, (p * (a / App.hundred))%Qc)) ∧
  (∀ sort1 sort2 df1 df2 s1 s2 n1 n2 p b a t1 t2,
     App.targets (App.calculate_allocation sort1 df1 p b a s1 n1) = Some t1 →
     App.targets (App.calculate_allocation sort2 df2 p b a s2 n2) = Some t2 →
     t1 = t2) ∧
  (∀ sort df s n,
     App.altcoin_basket sort df s n ≠ [] →
     App.targets
       (App.calculate_allocation sort df
          (Qc_of_Z 100000) (Qc_of_Z 150) (Qc_of_Z 25) s n)
     = Some (Qc_of_Z 150000, Qc_of_Z 25000)).
Proof.
  assert (∀ sort df p b a s n t,
    App.targets (App.calculate_allocation sort df p b a s n) = Some t →
    t = ((p * (b / App.hundred))%Qc, (p * (a / App.hundred))%Qc)) as Hsome.
  { intros sort df p b a s n t.
    pose proof (calculate_allocation_cases sort df p b a s n) as Hcases.
    simpl in Hcases.
    destruct (App.calculate_allocation sort df p b a s n)
      as [|top|tb ta|tb ta rows tot ref]; simpl; [done|done| |].
    - destruct Hcases as (_ & _ & -> & ->). by intros [= <-].
    - destruct Hcases as (_ & _ & -> & -> & _). by intros [= <-]. }
  assert (∀ sort df p b a s n,
    App.altcoin_basket sort df s n ≠ [] →
    App.targets (App.calculate_allocation sort df p b a s n)
    = Some ((p * (b / App.hundred))%Qc, (p * (a / App.hundred))%Qc)) as Hreach.
  { intros sort df p b a s n Hbasket.
    pose proof (calculate_allocation_cases sort df p b a s n) as Hcases.
    simpl in Hcases.
    destruct (App.calculate_allocation sort df p b a s n)
      as [|top|tb ta|tb ta rows tot ref]; simpl.
    - exfalso. apply Hbasket. unfold App.altcoin_basket.
      rewrite Hcases. apply take_nil.
    - done.
    - by destruct Hcases as (_ & _ & -> & ->).
    - by destruct Hcases as (_ & _ & -> & -> & _). }
  split; [exact Hreach|]. split.
  - intros sort1 sort2 df1 df2 s1 s2 n1 n2 p b a t1 t2 H1 H2.
    apply Hsome in H1, H2. congruence.
  - intros sort df s n Hbasket. rewrite Hreach by done.
    do 2 f_equal; apply Qc_is_canon; reflexivity.
Qed.

Lemma targets_do_not_depend_on_basket_witness :
  App.targets
    (App.calculate_allocation stable_sort_by_rank sample_df
       (Qc_of_Z 100000) (Qc_of_Z 150) (Qc_of_Z 25) "usdt" 3)
  = Some (Qc_of_Z 150000, Qc_of_Z 25000)
  ∧ App.targets
      (App.calculate_allocation reversing_sort_by_rank tied_df
         (Qc_of_Z 100000) (Qc_of_Z 150) (Qc_of_Z 25) "" 1)
    = Some (Qc_of_Z 150000, Qc_of_Z 25000).
Proof.
  destruct targets_do_not_depend_on_basket as (_ & _ & H).
  split; apply H; discriminate.
Defined.

(** C8, as stated, fails: the targets are computed inside the branch of a
    non-empty basket only. Two runs with the same portfolio, weights,
    exclusions and N that differ in the record list alone: with BTC as the
    only record nothing is left after the filter and no target is computed;
    with [sample_df] both targets are. *)
Lemma targets_need_a_basket :
  App.targets
    (App.calculate_allocation stable_sort_by_rank [sample_row "BTC" 1 1000]
       (Qc_of_Z 100000) (Qc_of_Z 150) (Qc_of_Z 25) "usdt" 10)
  = None
  ∧ App.targets
      (App.calculate_allocation stable_sort_by_rank sample_df
         (Qc_of_Z 100000) (Qc_of_Z 150) (Qc_of_Z 25) "usdt" 10)
    = Some (Qc_of_Z 150000, Qc_of_Z 25000).
Proof.
  split; [reflexivity|].
  transitivity (Some ((Qc_of_Z 100000 * (Qc_of_Z 150 / App.hundred))%Qc,
                      (Qc_of_Z 100000 * (Qc_of_Z 25 / App.hundred))%Qc));
    [reflexivity|].
  do 2 f_equal; apply Qc_is_canon; reflexivity.
Qed.

(** ** C7: exclusion and top-N *)

Lemma btc_always_excluded s : "btc" ∈ App.excluded_tokens s.
Proof. unfold App.excluded_tokens. apply elem_of_union_r. by apply elem_of_singleton. Qed.

Lemma filter_excluded_length (sort : list App.row → list App.row) excluded df :
  App.sorts_by_rank sort →
  length (App.filter_excluded excluded (sort df))
  = length (App.filter_excluded excluded df).
Proof.
  intros Hsort. destruct (Hsort df) as [Hperm _].
  unfold App.filter_excluded. by rewrite <- Hperm.
Qed.

(** C7. The exclusion set always holds ["btc"]; no record whose lower-case
    symbol is in it is in the basket; the basket holds input records only;
    and it is the first [top_n] of the records that survive the filter, so
    it has exactly [top_n] records whenever at least [top_n] records of the
    input are not excluded. *)
Theorem exclusion_precedes_truncation (sort : list App.row → list App.row)
    (df : list App.row) (s : string) (n : nat) :
  App.sorts_by_rank sort →
  let excluded := App.excluded_tokens s in
  let basket := App.altcoin_basket sort df s n in
  "btc" ∈ excluded
  ∧ (∀ r, App.lower (App.symbol r) ∈ excluded → r ∉ basket)
  ∧ (∀ r, r ∈ basket → r ∈ df)
  ∧ length basket = n `min` length (App.filter_excluded excluded df)
  ∧ (n ≤ length (App.filter_excluded excluded df) → length basket = n).
Proof.
  intros Hsort excluded basket.
  assert (length basket = n `min` length (App.filter_excluded excluded df)) as Hlen.
  { unfold basket, App.altcoin_basket, App.head.
    by rewrite length_take, filter_excluded_length. }
  split; [apply btc_always_excluded|]. split; [|split; [|split]].
  - intros r Hr Hin. unfold basket, App.altcoin_basket, App.head in Hin.
    apply subseteq_take in Hin. unfold App.filter_excluded in Hin.
    apply list_elem_of_filter in Hin as [Hnot _]. by apply Hnot.
  - intros r Hin. unfold basket, App.altcoin_basket, App.head in Hin.
    apply subseteq_take in Hin. unfold App.filter_excluded in Hin.
    apply list_elem_of_filter in Hin as [_ Hin].
    destruct (Hsort df) as [Hperm _]. by rewrite Hperm.
  - exact Hlen.
  - intros Hn. rewrite Hlen. lia.
Qed.

Lemma exclusion_precedes_truncation_witness :
  App.symbol <$> App.altcoin_basket stable_sort_by_rank sample_df "usdt, ETH" 2
  = ["XRP"; "SOL"]
  ∧ length (App.altcoin_basket stable_sort_by_rank sample_df "usdt, ETH" 2) = 2.
Proof.
  split; [reflexivity|].
  destruct (exclusion_precedes_truncation stable_sort_by_rank sample_df
              "usdt, ETH" 2 stable_sort_sorts) as (_ & _ & _ & _ & Hn).
  apply Hn. vm_compute. lia.
Defined.

(** * Further properties *)

(** ** The page loops, for any client *)

Lemma app_retry_loop_requests c page retries delay fuel attempt all_coins tr :
  ∃ k, k ≤ retries - attempt
       ∧ requests_of (App.retry_loop c page retries delay fuel attempt all_coins tr).2
         = requests_of tr ++ replicate k page.
Proof.
  revert attempt tr. induction fuel as [|fuel IH]; intros attempt tr.
  - exists 0. split; [lia|]. simpl. by rewrite app_nil_r.
  - unfold App.retry_loop; fold App.retry_loop.
    destruct (attempt <? retries) eqn:Hlt.
    + apply Nat.ltb_lt in Hlt.
      destruct (c tr page) as [[|coin data]|].
      * exists 1. split; [lia|]. destruct (page =? 1); by loop_step.
      * exists 1. split; [lia|]. by loop_step.
      * destruct (attempt + 1 <? retries) eqn:Hnext.
        -- apply Nat.ltb_lt in Hnext.
           destruct (IH (attempt + 1)
                       (((tr ++ [Request page])
                           ++ [StWarning (ApiError page (attempt + 1) retries)])
                           ++ [Sleep delay])) as (k & Hk & Hreq).
           exists (S k). split; [lia|]. rewrite Hreq. by loop_step.
        -- exists 1. split; [lia|]. by loop_step.
    + exists 0. split; [lia|]. simpl. by rewrite app_nil_r.
Qed.

Lemma batch_retry_loop_requests c page retries delay fuel attempt all_coins tr :
  ∃ k, k ≤ retries - attempt
       ∧ requests_of
           (FetchCoingecko.retry_loop c page retries delay fuel attempt all_coins tr).2
         = requests_of tr ++ replicate k page.
Proof.
  revert attempt tr. induction fuel as [|fuel IH]; intros attempt tr.
  - exists 0. split; [lia|]. simpl. by rewrite app_nil_r.
  - unfold FetchCoingecko.retry_loop; fold FetchCoingecko.retry_loop.
    destruct (attempt <? retries) eqn:Hlt.
    + apply Nat.ltb_lt in Hlt.
      destruct (c tr page) as [[|coin data]|].
      * exists 1. split; [lia|]. by loop_step.
      * exists 1. split; [lia|]. by loop_step.
      * destruct (retries <=? attempt + 1) eqn:Hlast.
        -- exists 1. split; [lia|]. by loop_step.
        -- apply Nat.leb_gt in Hlast.
           destruct (IH (attempt + 1) ((tr ++ [Request page]) ++ [Sleep delay]))
             as (k & Hk & Hreq).
           exists (S k). split; [lia|]. rewrite Hreq. by loop_step.
    + exists 0. split; [lia|]. simpl. by rewrite app_nil_r.
Qed.

Lemma blocks_cons k ks p ps : blocks (k :: ks) (p :: ps) = replicate k p ++ blocks ks ps.
Proof. reflexivity. Qed.

Lemma blocks_nil_l ps : blocks [] ps = [].
Proof. reflexivity. Qed.

Lemma blocks_nil_r ks : blocks ks [] = [].
Proof. unfold blocks. by rewrite zip_with_nil_r. Qed.

Lemma app_page_loop_requests c retries delay ps all_coins tr :
  ∃ ks, length ks ≤ length ps ∧ Forall (λ k, k ≤ retries) ks
        ∧ requests_of (App.page_loop c retries delay ps all_coins tr).2
          = requests_of tr ++ blocks ks ps.
Proof.
  revert all_coins tr. induction ps as [|p ps IH]; intros all_coins tr.
  - exists []. simpl. by rewrite blocks_nil_l, app_nil_r.
  - simpl.
    destruct (app_retry_loop_requests c p retries delay (S retries) 0 all_coins tr)
      as (k & Hk & Hreq).
    destruct (App.retry_loop _ _ _ _ _ _ _ _) as [[a|v| |] tr1]; simpl in Hreq.
    + destruct (IH a tr1) as (ks & Hlen & Hks & Hreq').
      exists (k :: ks). split; [simpl; lia|]. split; [constructor; [lia|done]|].
      by rewrite Hreq', Hreq, blocks_cons, app_assoc.
    + exists [k]. split; [simpl; lia|]. split; [repeat constructor; lia|].
      by rewrite blocks_cons, blocks_nil_l, app_nil_r.
    + exists [k]. split; [simpl; lia|]. split; [repeat constructor; lia|].
      by rewrite blocks_cons, blocks_nil_l, app_nil_r.
    + exists [k]. split; [simpl; lia|]. split; [repeat constructor; lia|].
      by rewrite blocks_cons, blocks_nil_l, app_nil_r.
Qed.

Lemma batch_page_loop_requests c retries delay ps all_coins tr :
  ∃ ks, length ks ≤ length ps ∧ Forall (λ k, k ≤ retries) ks
        ∧ requests_of (FetchCoingecko.page_loop c retries delay ps all_coins tr).2
          = requests_of tr ++ blocks ks ps.
Proof.
  revert all_coins tr. induction ps as [|p ps IH]; intros all_coins tr.
  - exists []. simpl. by rewrite blocks_nil_l, app_nil_r.
  - simpl.
    destruct (batch_retry_loop_requests c p retries delay (S retries) 0 all_coins tr)
      as (k & Hk & Hreq).
    destruct (FetchCoingecko.retry_loop _ _ _ _ _ _ _ _) as [[a|[]| |] tr1];
      simpl in Hreq.
    + destruct (IH a tr1) as (ks & Hlen & Hks & Hreq').
      exists (k :: ks). split; [simpl; lia|]. split; [constructor; [lia|done]|].
      by rewrite Hreq', Hreq, blocks_cons, app_assoc.
    + exists [k]. split; [simpl; lia|]. split; [repeat constructor; lia|].
      by rewrite blocks_cons, blocks_nil_l, app_nil_r.
    + exists [k]. split; [simpl; lia|]. split; [repeat constructor; lia|].
      by rewrite blocks_cons, blocks_nil_l, app_nil_r.
Qed.

Lemma blocks_elem ks ps x : x ∈ blocks ks ps → x ∈ ps.
Proof.
  revert ks. induction ps as [|p ps IH]; intros ks Hx.
  - by rewrite blocks_nil_r in Hx.
  - destruct ks as [|k ks]; [by apply elem_of_nil in Hx|].
    rewrite blocks_cons in Hx. apply elem_of_app in Hx as [Hx|Hx].
    + apply elem_of_replicate_inv in Hx as ->. apply list_elem_of_here.
    + by apply list_elem_of_further, (IH ks).
Qed.

Lemma blocks_length r ks ps :
  Forall (λ k, k ≤ r) ks → length (blocks ks ps) ≤ length ps * r.
Proof.
  revert ks. induction ps as [|p ps IH]; intros ks Hks.
  - by rewrite blocks_nil_r.
  - destruct ks as [|k ks]; [simpl; lia|].
    apply Forall_cons in Hks as [Hk Hks]. specialize (IH ks Hks).
    rewrite blocks_cons, length_app, length_replicate. simpl. lia.
Qed.

Lemma blocks_count r p ks ps :
  NoDup ps → Forall (λ k, k ≤ r) ks →
  length (filter (λ q, q = p) (blocks ks ps)) ≤ r.
Proof.
  revert ks. induction ps as [|q ps IH]; intros ks Hnd Hks.
  - rewrite blocks_nil_r. simpl. lia.
  - destruct ks as [|k ks]; [simpl; lia|].
    apply NoDup_cons in Hnd as [Hq Hnd]. apply Forall_cons in Hks as [Hk Hks].
    rewrite blocks_cons, filter_app, length_app.
    destruct (decide (p = q)) as [->|Hne].
    + rewrite count_replicate, count_fresh; [lia|].
      intros Hin. by apply Hq, (blocks_elem ks).
    + rewrite count_fresh.
      * specialize (IH ks Hnd Hks). lia.
      * intros Hin. by apply elem_of_replicate_inv in Hin.
Qed.

Lemma blocks_sorted ks ps :
  StronglySorted le ps → StronglySorted le (blocks ks ps).
Proof.
  revert ks. induction ps as [|p ps IH]; intros ks Hps.
  - rewrite blocks_nil_r. constructor.
  - destruct ks as [|k ks]; [constructor|].
    apply StronglySorted_cons in Hps as [Hp Hps]. rewrite blocks_cons.
    apply StronglySorted_app_2; [| |by apply IH].
    + intros x1 x2 Hx1 Hx2. apply elem_of_replicate_inv in Hx1 as ->.
      apply blocks_elem in Hx2. by apply (proj1 (Forall_forall _ _) Hp).
    + clear. induction k as [|k IHk]; simpl; [constructor|].
      constructor; [done|]. apply Forall_forall. intros x Hx.
      by apply elem_of_replicate_inv in Hx as ->.
Qed.

Lemma seq_sorted a n : StronglySorted le (seq a n).
Proof.
  revert a. induction n as [|n IH]; intros a; simpl; [constructor|].
  constructor; [apply IH|]. apply Forall_forall. intros x Hx.
  apply elem_of_seq in Hx. lia.
Qed.

Lemma blocks_disciplined pages retries ks (tr : trace) :
  Forall (λ k, k ≤ retries) ks →
  requests_of tr = blocks ks (seq 1 pages) →
  disciplined pages retries tr.
Proof.
  intros Hks Hreq. unfold disciplined, attempts_on. rewrite Hreq.
  split; [apply blocks_sorted, seq_sorted|]. split; [|split].
  - intros p Hp. apply blocks_elem, elem_of_seq in Hp. lia.
  - intros p. apply blocks_count; [apply NoDup_seq|done].
  - pose proof (blocks_length retries ks (seq 1 pages) Hks) as Hlen.
    by rewrite length_seq in Hlen.
Qed.

Lemma app_fetch_market_data_requests c pages retries delay :
  requests_of (App.fetch_market_data c pages retries delay).2
  = requests_of (App.fetch_pages c pages retries delay).2.
Proof.
  unfold App.fetch_market_data.
  destruct (App.fetch_pages c pages retries delay) as [[[|coin l]|v| |] tr];
    simpl; [|done..].
  by rewrite requests_of_app, app_nil_r.
Qed.

Lemma batch_fetch_market_data_requests c pages retries delay :
  requests_of (FetchCoingecko.fetch_market_data c pages retries delay).2
  = requests_of (FetchCoingecko.fetch_pages c pages retries delay).2.
Proof.
  unfold FetchCoingecko.fetch_market_data.
  by destruct (FetchCoingecko.fetch_pages c pages retries delay) as [[l|[]| |] tr].
Qed.

(** X1. Whatever the API answers, both variants of [fetch_market_data] end
    (they return or raise), and they ask for pages in ascending order, only
    for pages [1..pages], for no page more than [retries] times, hence for
    at most [pages * retries] pages in all. *)
Theorem fetch_is_disciplined (c : client) (pages retries : nat) (delay : Qc) :
  let app := App.fetch_market_data c pages retries delay in
  let batch := FetchCoingecko.fetch_market_data c pages retries delay in
  app.1 ≠ Diverge ∧ disciplined pages retries app.2
  ∧ batch.1 ≠ Diverge ∧ disciplined pages retries batch.2.
Proof.
  split; [apply app_fetch_market_data_total|]. split; [|split].
  - destruct (app_page_loop_requests c retries delay (seq 1 pages) [] [])
      as (ks & _ & Hks & Hreq).
    apply (blocks_disciplined _ _ ks); [done|].
    by rewrite app_fetch_market_data_requests.
  - apply batch_fetch_market_data_total.
  - destruct (batch_page_loop_requests c retries delay (seq 1 pages) [] [])
      as (ks & _ & Hks & Hreq).
    apply (blocks_disciplined _ _ ks); [done|].
    by rewrite batch_fetch_market_data_requests.
Qed.

Lemma app_page_loop_no_retries c delay ps all_coins tr :
  App.page_loop c 0 delay ps all_coins tr = (Normal all_coins, tr).
Proof. induction ps as [|p ps IH]; [done|]. simpl. by rewrite IH. Qed.

Lemma batch_page_loop_no_retries c delay ps all_coins tr :
  FetchCoingecko.page_loop c 0 delay ps all_coins tr = (Normal all_coins, tr).
Proof. induction ps as [|p ps IH]; [done|]. simpl. by rewrite IH. Qed.

(** X2. With [pages = 0] or [retries = 0] no request is made at all:
    [app.py] reports "No data fetched" and returns [None], while
    [fetch_coingecko.py] returns the empty list as if the fetch had
    succeeded. *)
Theorem fetch_without_pages_or_retries (c : client) (n : nat) (delay : Qc) :
  App.fetch_market_data c 0 n delay = (Return None, [StError NoDataFetched])
  ∧ App.fetch_market_data c n 0 delay = (Return None, [StError NoDataFetched])
  ∧ FetchCoingecko.fetch_market_data c 0 n delay = (Return [], [])
  ∧ FetchCoingecko.fetch_market_data c n 0 delay = (Return [], []).
Proof.
  repeat split; try reflexivity.
  - unfold App.fetch_market_data, App.fetch_pages.
    by rewrite app_page_loop_no_retries.
  - unfold FetchCoingecko.fetch_market_data, FetchCoingecko.fetch_pages.
    by rewrite batch_page_loop_no_retries.
Qed.

(** ** The two variants side by side *)

Lemma retry_loops_agree f page retries delay delay' fuel attempt all_coins tr tr' :
  retries - attempt < fuel →
  requests_of tr = requests_of tr' →
  same_outcome
    (App.retry_loop (history_client f) page retries delay fuel attempt all_coins tr)
    (FetchCoingecko.retry_loop (history_client f) page retries delay' fuel attempt
       all_coins tr').
Proof.
  revert attempt tr tr'.
  induction fuel as [|fuel IH]; intros attempt tr tr' Hfuel Hreq; [lia|].
  unfold App.retry_loop, FetchCoingecko.retry_loop;
    fold App.retry_loop; fold FetchCoingecko.retry_loop.
  destruct (attempt <? retries) eqn:Hlt; [|by split].
  apply Nat.ltb_lt in Hlt. unfold history_client at 1 3. rewrite <- Hreq.
  destruct (f (requests_of tr) page) as [[|coin data]|].
  - split; [|done]. destruct (page =? 1); loop_step; by rewrite Hreq.
  - split; [|done]. loop_step. by rewrite Hreq.
  - destruct (attempt + 1 <? retries) eqn:Hnext.
    + apply Nat.ltb_lt in Hnext.
      replace (retries <=? attempt + 1) with false
        by (symmetry; apply Nat.leb_gt; lia).
      apply IH; [lia|]. loop_step. by rewrite Hreq.
    + apply Nat.ltb_ge in Hnext.
      replace (retries <=? attempt + 1) with true
        by (symmetry; apply Nat.leb_le; lia).
      split; [|done]. loop_step. by rewrite Hreq.
Qed.

Lemma page_loops_agree f retries delay delay' ps all_coins tr tr' :
  requests_of tr = requests_of tr' →
  same_outcome
    (App.page_loop (history_client f) retries delay ps all_coins tr)
    (FetchCoingecko.page_loop (history_client f) retries delay' ps all_coins tr').
Proof.
  revert all_coins tr tr'. induction ps as [|p ps IH]; intros all_coins tr tr' Hreq.
  - by split.
  - simpl.
    pose proof (retry_loops_agree f p retries delay delay' (S retries) 0
                  all_coins tr tr') as Hagree.
    destruct (App.retry_loop _ _ _ _ _ _ _ _) as [[a|[v|]| |] tr1];
      destruct (FetchCoingecko.retry_loop _ _ _ _ _ _ _ _) as [[b|[]| |] tr1'];
      destruct Hagree as [Hreq1 Hout]; try done; try lia; simpl in *.
    subst b. by apply IH.
Qed.

(** X3. Against an API whose answers depend on the requests made so far
    (not on the pauses or the messages), the page loops of [app.py] and of
    [fetch_coingecko.py] make the same requests and end alike: with the same
    fetched records, or with [return None] in [app.py] exactly where
    [fetch_coingecko.py] raises. The retry delays need not be equal. *)
Theorem variants_fetch_alike (f : list nat → nat → response)
    (pages retries : nat) (delay delay' : Qc) :
  same_outcome
    (App.fetch_pages (history_client f) pages retries delay)
    (FetchCoingecko.fetch_pages (history_client f) pages retries delay').
Proof. by apply page_loops_agree. Qed.

(** ** Empty upstream *)

Lemma requests_with_once ps : requests_with (λ _, 0) ps = ps.
Proof.
  unfold requests_with. induction ps as [|p ps IH]; [done|].
  simpl. f_equal. exact IH.
Qed.

Lemma scripted_client_spec d page :
  fails_then_succeeds (scripted_client d) page 0 (d page).
Proof. split; [intros tr Htr; lia|done]. Qed.

Lemma join_all_empty (d : nat → list (gmap string json)) ps :
  (∀ p, p ∈ ps → d p = []) → mjoin (d <$> ps) = [].
Proof.
  induction ps as [|p ps IH]; intros Hd; [done|].
  rewrite fmap_cons. simpl. rewrite (Hd p) by apply list_elem_of_here.
  apply IH. intros q Hq. by apply Hd, list_elem_of_further.
Qed.

(** X4. If every page answers the empty array, every page [1..pages] is
    still requested, once each; [app.py] then reports "No data fetched" and
    returns [None], although no request failed, and [fetch_coingecko.py]
    returns the empty list. *)
Theorem empty_upstream (d : nat → list (gmap string json))
    (pages retries : nat) (delay : Qc) :
  1 ≤ retries →
  (∀ p, 1 ≤ p ≤ pages → d p = []) →
  let app := App.fetch_market_data (scripted_client d) pages retries delay in
  let batch := FetchCoingecko.fetch_market_data (scripted_client d) pages retries delay in
  app.1 = Return None
  ∧ requests_of app.2 = seq 1 pages
  ∧ last app.2 = Some (StError NoDataFetched)
  ∧ batch.1 = Return []
  ∧ requests_of batch.2 = seq 1 pages.
Proof.
  intros Hr Hd.
  assert (mjoin (d <$> seq 1 pages) = []) as Hempty.
  { apply join_all_empty. intros p Hp. apply Hd. apply elem_of_seq in Hp. lia. }
  destruct (app_page_loop_flaky (scripted_client d) retries delay (λ _, 0) d
              (seq 1 pages)) with (all_coins := @nil (gmap string json))
                                  (tr := @nil event) as (tr & Hrun & Hreq).
  { apply NoDup_seq. }
  { intros p _. split; [lia|apply scripted_client_spec]. }
  { intros p _. apply not_elem_of_nil. }
  destruct (batch_page_loop_flaky (scripted_client d) retries delay (λ _, 0) d
              (seq 1 pages)) with (all_coins := @nil (gmap string json))
                                  (tr := @nil event) as (tr' & Hrun' & Hreq').
  { apply NoDup_seq. }
  { intros p _. split; [lia|apply scripted_client_spec]. }
  { intros p _. apply not_elem_of_nil. }
  rewrite Hempty in Hrun, Hrun'. rewrite requests_with_once in Hreq, Hreq'.
  simpl in Hrun, Hrun', Hreq, Hreq'.
  unfold App.fetch_market_data, FetchCoingecko.fetch_market_data,
    App.fetch_pages, FetchCoingecko.fetch_pages.
  rewrite Hrun, Hrun'. simpl.
  repeat split; try done.
  - by rewrite requests_of_app, app_nil_r.
  - by rewrite last_snoc.
Qed.

Lemma empty_upstream_witness :
  (App.fetch_market_data (scripted_client (λ _, [])) 3 3 five).1 = Return None
  ∧ requests_of (App.fetch_market_data (scripted_client (λ _, [])) 3 3 five).2
    = [1; 2; 3].
Proof.
  destruct (empty_upstream (λ _, []) 3 3 five) as (Hres & Hreq & _); [lia|done|].
  split; [exact Hres|exact Hreq].
Defined.

(** ** Validation, further *)

Lemma valid_spec coin :
  valid coin = true ↔ ∀ key, key ∈ App.required_keys → App.missing coin key = false.
Proof.
  unfold valid. rewrite forallb_forall. split.
  - intros H key Hkey. apply list_elem_of_In, H in Hkey.
    by apply negb_true_iff in Hkey.
  - intros H key Hkey. apply negb_true_iff, H. by apply list_elem_of_In.
Qed.

Lemma valid_false coin :
  valid coin = false →
  ∃ key, key ∈ App.required_keys ∧ App.missing coin key = true.
Proof.
  intros Hv. destruct (process_coin_cases coin) as [Hall|Hex]; [|done].
  apply (proj2 (valid_spec coin)) in Hall. congruence.
Qed.

Lemma normalize_lengths (all_coins : list (gmap string json)) :
  length (App.normalize all_coins).1 + length (App.normalize all_coins).2
  = length all_coins.
Proof.
  induction all_coins as [|coin l IH]; [done|].
  rewrite normalize_cons. cbn [fst snd]. rewrite !length_app. cbn [length].
  destruct (process_coin_cases coin) as [Hall|(key & Hkey & Hmiss)].
  - rewrite process_coin_kept by done. simpl. lia.
  - destruct (process_coin_dropped coin key Hkey Hmiss) as [-> ->]. simpl. lia.
Qed.

Lemma select_required_other coin key :
  key ∉ App.required_keys → App.select_required coin !! key = None.
Proof.
  intros Hkey. unfold App.select_required. apply not_elem_of_list_to_map_1.
  rewrite <- list_fmap_compose.
  by replace (fst ∘ (λ key0, (key0, coin !!! key0))) with (@id string)
    by done; rewrite list_fmap_id.
Qed.

Lemma normalize_valid all_coins :
  (App.normalize all_coins).1
  = App.select_required <$> filter (λ coin, valid coin = true) all_coins.
Proof.
  induction all_coins as [|coin l IH]; [done|].
  rewrite normalize_cons. cbn [fst]. rewrite IH.
  destruct (valid coin) eqn:Hv.
  - rewrite filter_cons_True by done.
    by rewrite process_coin_kept by (by apply valid_spec).
  - rewrite filter_cons_False by (by rewrite Hv).
    apply valid_false in Hv as (key & Hkey & Hmiss).
    by destruct (process_coin_dropped coin key Hkey Hmiss) as [-> _].
Qed.

(** X5. Validation accounts for every input record: the records it emits
    and the entries of its skip log add up to the number of input records,
    and the skip log has one entry for each invalid record. *)
Theorem normalize_accounts_for_all (all_coins : list (gmap string json)) :
  length (App.normalize all_coins).1 + length (App.normalize all_coins).2
  = length all_coins
  ∧ length (App.normalize all_coins).2
    = length (filter (λ coin, valid coin = false) all_coins).
Proof.
  split; [apply normalize_lengths|].
  pose proof (normalize_lengths all_coins) as Hlen.
  rewrite normalize_valid, length_fmap in Hlen.
  assert (length (filter (λ coin, valid coin = true) all_coins)
          + length (filter (λ coin, valid coin = false) all_coins)
          = length all_coins) as Hsplit.
  { clear. induction all_coins as [|coin l IH]; [done|].
    destruct (valid coin) eqn:Hv.
    - rewrite filter_cons_True, filter_cons_False by (by rewrite ?Hv). simpl. lia.
    - rewrite filter_cons_False, filter_cons_True by (by rewrite ?Hv). simpl. lia. }
  lia.
Qed.

(** X6. The output of validation is the input with the invalid records
    removed and nothing else changed: the valid records come out in input
    order, each with the six required fields at the values of the source
    record and with no other field. *)
Theorem normalize_keeps_valid_in_order (all_coins : list (gmap string json)) :
  (App.normalize all_coins).1
  = App.select_required <$> filter (λ coin, valid coin = true) all_coins
  ∧ ∀ coin key,
      valid coin = true →
      App.select_required coin !! key
      = if bool_decide (key ∈ App.required_keys) then coin !! key else None.
Proof.
  split; [apply normalize_valid|].
  intros coin key Hv. case_bool_decide as Hkey.
  - rewrite select_required_lookup by done.
    pose proof (proj1 (valid_spec coin) Hv key Hkey) as Hpresent.
    apply missing_false in Hpresent as (v & Hv' & _).
    rewrite Hv'. f_equal. by apply lookup_total_correct.
  - by apply select_required_other.
Qed.

Lemma normalize_keeps_valid_in_order_witness :
  App.select_required eth !! "total_volume" = None
  ∧ App.select_required eth !! "symbol" = eth !! "symbol".
Proof.
  destruct (normalize_keeps_valid_in_order []) as [_ H].
  split.
  - exact (H eth "total_volume" eq_refl).
  - exact (H eth "symbol" eq_refl).
Defined.

Lemma select_required_complete_id rec :
  complete rec → App.select_required rec = rec.
Proof.
  intros [Hdom Hall]. apply map_eq. intros key.
  destruct (decide (key ∈ App.required_keys)) as [Hkey|Hkey].
  - rewrite select_required_lookup by done.
    destruct (Hall key Hkey) as (v & Hv & _). rewrite Hv. f_equal.
    by apply lookup_total_correct.
  - rewrite select_required_other by done. symmetry.
    apply not_elem_of_dom. rewrite Hdom. by rewrite elem_of_list_to_set.
Qed.

Lemma complete_valid rec : complete rec → valid rec = true.
Proof.
  intros [_ Hall]. apply valid_spec. intros key Hkey.
  by apply missing_false, Hall.
Qed.

(** X7. Complete records pass validation unchanged and nothing is logged;
    so validating the output of validation again changes nothing. *)
Theorem normalize_is_idempotent :
  (∀ recs, Forall complete recs → App.normalize recs = (recs, [])) ∧
  (∀ all_coins,
     App.normalize (App.normalize all_coins).1 = ((App.normalize all_coins).1, [])).
Proof.
  assert (∀ recs, Forall complete recs → App.normalize recs = (recs, [])) as H.
  { induction 1 as [|rec recs Hrec Hrecs IH]; [done|].
    rewrite normalize_cons, IH.
    rewrite process_coin_kept by (by apply valid_spec, complete_valid).
    by rewrite select_required_complete_id. }
  split; [exact H|]. intros all_coins. apply H, normalize_complete.
Qed.

Lemma normalize_is_idempotent_witness :
  App.normalize (App.normalize [eth; no_cap; sol]).1
  = ((App.normalize [eth; no_cap; sol]).1, []).
Proof.
  destruct normalize_is_idempotent as [H _].
  apply H, normalize_complete.
Defined.

Lemma justified_mono l l' e :
  (∀ coin, coin ∈ l → coin ∈ l') → justified l e → justified l' e.
Proof.
  intros Hsub. destruct e as [id|id rank ks]; simpl.
  - intros (coin & Hin & H). exists coin. split; [by apply Hsub|done].
  - intros (coin & Hin & H). exists coin. split; [by apply Hsub|done].
Qed.

Lemma process_coin_justified coin :
  Forall (justified [coin]) (App.process_coin ([], []) coin).2.
Proof.
  unfold App.process_coin.
  destruct (App.missing coin "market_cap_rank") eqn:Hrank.
  - repeat constructor. exists coin. split; [apply list_elem_of_here|].
    split; [by apply missing_spec|done].
  - destruct (filter _ App.required_keys) as [|k ks] eqn:Hf; [constructor|].
    repeat constructor. exists coin. split; [apply list_elem_of_here|].
    apply missing_false in Hrank as (rank & Hrank & Hne).
    assert (dict_get coin "market_cap_rank" (JStr "N/A") = rank) as ->
      by (unfold dict_get; by rewrite Hrank).
    split; [done|]. split; [done|]. split; [done|]. split; [done|].
    assert (∀ key, key ∈ k :: ks
                   ↔ (key ∈ App.required_keys ∧ absent_or_null coin key)) as Hks.
    { intros key. rewrite <- Hf, list_elem_of_filter, missing_spec. tauto. }
    split; [|exact Hks].
    intros Hin. apply Hks in Hin as [_ [Habs|Hnull]]; congruence.
Qed.

(** X8. Every entry of the skip log is true of some input record. A
    "missing rank" entry names a record whose rank is absent or null. A
    "missing keys" entry names a record whose rank is present and non-null
    (so the "N/A" placeholder is never shown), and lists exactly its absent
    or null required keys, at least one and never the rank. *)
Theorem skip_log_is_justified (all_coins : list (gmap string json)) :
  Forall (justified all_coins) (App.normalize all_coins).2.
Proof.
  induction all_coins as [|coin l IH]; [constructor|].
  rewrite normalize_cons. cbn [snd]. apply Forall_app. split.
  - eapply Forall_impl; [apply process_coin_justified|].
    intros e. apply justified_mono. intros c Hc.
    apply list_elem_of_singleton in Hc as ->. apply list_elem_of_here.
  - eapply Forall_impl; [exact IH|].
    intros e. apply justified_mono. intros c Hc. by apply list_elem_of_further.
Qed.

Lemma select_required_is_select coin :
  App.select_required coin = FetchCoingecko.select coin.
Proof.
  apply map_eq. intros key.
  destruct (decide (key ∈ App.required_keys)) as [Hkey|Hkey].
  - rewrite select_required_lookup by done.
    rewrite select_lookup.
    + unfold dict_get. rewrite lookup_total_alt. by destruct (coin !! key).
    + unfold App.required_keys, FetchCoingecko.selected_keys in *.
      repeat (apply elem_of_cons in Hkey as [->|Hkey]; [in_list|]).
      by apply elem_of_nil in Hkey.
  - rewrite select_required_other by done. symmetry.
    apply not_elem_of_dom. rewrite select_dom, elem_of_list_to_set.
    intros Hin. apply Hkey.
    unfold App.required_keys, FetchCoingecko.selected_keys in *.
    repeat (apply elem_of_cons in Hin as [->|Hin]; [in_list|]).
    by apply elem_of_nil in Hin.
Qed.

(** X9. On the same fetched records, what [app.py] returns is what
    [fetch_coingecko.py] returns with the records of the invalid inputs
    left out: the same six-key records, in the same order. *)
Theorem app_output_within_batch_output (all_coins : list (gmap string json)) :
  (App.normalize all_coins).1
  = FetchCoingecko.select <$> filter (λ coin, valid coin = true) all_coins
  ∧ (App.normalize all_coins).1 `sublist_of` (FetchCoingecko.select <$> all_coins).
Proof.
  assert ((App.normalize all_coins).1
          = FetchCoingecko.select <$> filter (λ coin, valid coin = true) all_coins)
    as Heq.
  { rewrite normalize_valid. apply list_fmap_ext. intros _ coin _.
    apply select_required_is_select. }
  split; [exact Heq|]. rewrite Heq. apply fmap_sublist, sublist_filter.
Qed.

(** ** What is displayed *)

Lemma lower_upper_ascii c : App.lower_ascii (App.upper_ascii c) = App.lower_ascii c.
Proof. by destruct c as [[] [] [] [] [] [] [] []]. Qed.

Lemma lower_upper s : App.lower (App.upper s) = App.lower s.
Proof.
  induction s as [|c s IH]; [done|]. simpl. by rewrite IH, lower_upper_ascii.
Qed.

Lemma display_rows_ranks basket total target :
  App.basket_rank <$> App.display_rows basket total target
  = seq 1 (length basket).
Proof.
  unfold App.display_rows. rewrite fmap_imap.
  rewrite (imap_ext _ (λ j _, S j)) by (intros; simpl; lia).
  by rewrite imap_seq_0, fmap_S_seq.
Qed.

(** X12. The displayed table follows the basket row by row: basket ranks
    are 1, 2, ..., N without gaps; symbols are the basket's, upper-cased;
    the overall ranks are the basket's and ascend down the table; and every
    displayed symbol is the upper-case form of the symbol of an input record
    whose lower-case form is not an excluded token. *)
Theorem display_follows_basket (sort : list App.row → list App.row)
    (df : list App.row) (s : string) (n : nat) (total target : Qc) :
  App.sorts_by_rank sort →
  let basket := App.altcoin_basket sort df s n in
  let rows := App.display_rows basket total target in
  App.basket_rank <$> rows = seq 1 (length basket)
  ∧ App.Symbol <$> rows = (λ r, App.upper (App.symbol r)) <$> basket
  ∧ App.overall_rank <$> rows = App.market_cap_rank <$> basket
  ∧ StronglySorted Z.le (App.overall_rank <$> rows)
  ∧ (∀ row, row ∈ rows →
       ∃ r, r ∈ df
            ∧ App.Symbol row = App.upper (App.symbol r)
            ∧ App.lower (App.symbol r) ∉ App.excluded_tokens s).
Proof.
  intros Hsort basket rows. unfold rows.
  assert (App.overall_rank <$> App.display_rows basket total target
          = App.market_cap_rank <$> basket) as Hranks.
  { unfold App.display_rows. rewrite fmap_imap, <- imap_const. by apply imap_ext. }
  split; [apply display_rows_ranks|]. split; [|split; [exact Hranks|split]].
  - unfold App.display_rows. rewrite fmap_imap, <- imap_const. by apply imap_ext.
  - rewrite Hranks. apply StronglySorted_fmap with (R1 := App.rank_le); [done|].
    apply (StronglySorted_sublist _ _ (sort df)); [apply altcoin_basket_sublist|].
    apply Hsort.
  - intros row Hrow. unfold App.display_rows in Hrow.
    apply elem_of_lookup_imap in Hrow as (i & r & -> & Hr). simpl.
    apply list_elem_of_lookup_2 in Hr. exists r.
    unfold basket, App.altcoin_basket, App.head, App.filter_excluded in Hr.
    apply subseteq_take, list_elem_of_filter in Hr as [Hnot Hr].
    split; [|done]. destruct (Hsort df) as [Hperm _]. by rewrite Hperm.
Qed.

Lemma display_follows_basket_witness :
  App.Symbol
    <$> App.display_rows
          (App.altcoin_basket stable_sort_by_rank sample_df "usdt" 3)
          (Qc_of_Z 750) (Qc_of_Z 25000)
  = ["ETH"; "XRP"; "SOL"].
Proof.
  destruct (display_follows_basket stable_sort_by_rank sample_df "usdt" 3
              (Qc_of_Z 750) (Qc_of_Z 25000) stable_sort_sorts)
    as (_ & Hsym & _).
  rewrite Hsym. reflexivity.
Defined.

(** ** When nothing is allocated *)

Lemma filter_none {A} (P : A → Prop) `{∀ x, Decision (P x)} (l : list A) :
  (∀ x, x ∈ l → ¬ P x) → filter P l = [].
Proof.
  induction l as [|x l IH]; intros Hall; [done|].
  rewrite filter_cons_False by apply Hall, list_elem_of_here.
  apply IH. intros y Hy. by apply Hall, list_elem_of_further.
Qed.

Lemma filter_excluded_nil (sort : list App.row → list App.row) excluded df :
  App.sorts_by_rank sort →
  App.filter_excluded excluded (sort df) = []
  ↔ ∀ r, r ∈ df → App.lower (App.symbol r) ∈ excluded.
Proof.
  intros Hsort. destruct (Hsort df) as [Hperm _]. unfold App.filter_excluded.
  split.
  - intros Hnil r Hr. destruct (decide (App.lower (App.symbol r) ∈ excluded))
      as [|Hnot]; [done|].
    exfalso. eapply filter_nil_not_elem_of; [exact Hnil|exact Hnot|].
    by rewrite <- Hperm.
  - intros Hall. apply filter_none. intros r Hr Hnot.
    apply Hnot, Hall. by rewrite Hperm.
Qed.

(** X13. With an empty basket the block says why and goes no further. It
    reports "no altcoins remaining" exactly when every input record is
    excluded, and "could not select" exactly when some record is left and
    [top_n] is 0; the targets are computed exactly when the basket is not
    empty, and with an empty basket no row is displayed. *)
Theorem empty_basket_reasons (sort : list App.row → list App.row)
    (df : list App.row) (p b a : Qc) (s : string) (n : nat) :
  App.sorts_by_rank sort →
  let result := App.calculate_allocation sort df p b a s n in
  let basket := App.altcoin_basket sort df s n in
  (result = App.NoAltcoinsRemaining
   ↔ ∀ r, r ∈ df → App.lower (App.symbol r) ∈ App.excluded_tokens s)
  ∧ (result = App.CouldNotSelect n
     ↔ n = 0 ∧ ∃ r, r ∈ df ∧ App.lower (App.symbol r) ∉ App.excluded_tokens s)
  ∧ (App.targets result = None ↔ basket = [])
  ∧ (basket = [] → App.rows_of result = []).
Proof.
  intros Hsort result basket.
  pose proof (filter_excluded_nil sort (App.excluded_tokens s) df Hsort) as Hnil.
  pose proof (calculate_allocation_cases sort df p b a s n) as Hcases.
  simpl in Hcases. fold result in Hcases. fold basket in Hcases.
  assert (basket = App.head n
                     (App.filter_excluded (App.excluded_tokens s) (sort df)))
    as Hb by done.
  assert (App.filter_excluded (App.excluded_tokens s) (sort df) ≠ [] →
          (∃ r, r ∈ df ∧ App.lower (App.symbol r) ∉ App.excluded_tokens s))
    as Hsome.
  { intros Hne.
    destruct (App.filter_excluded _ (sort df)) as [|r l] eqn:Hf; [done|].
    exists r. assert (r ∈ App.filter_excluded (App.excluded_tokens s) (sort df))
      as Hr by (rewrite Hf; apply list_elem_of_here).
    unfold App.filter_excluded in Hr. apply list_elem_of_filter in Hr as [Hnot Hr].
    split; [|done]. destruct (Hsort df) as [Hperm _]. by rewrite Hperm. }
  assert (basket = [] →
          App.filter_excluded (App.excluded_tokens s) (sort df) = [] ∨ n = 0)
    as Hempty.
  { rewrite Hb. unfold App.head. intros Ht.
    destruct n; [by right|].
    destruct (App.filter_excluded _ (sort df)); [by left|done]. }
  destruct result as [|top|tb ta|tb ta rows tot ref] eqn:Hres.
  - assert (basket = []) as Hbasket by (rewrite Hb, Hcases; apply take_nil).
    split; [by rewrite <- Hnil|]. split; [split; [done|]|split; [done|done]].
    intros [_ (r & Hr & Hnot)]. exfalso. apply Hnot.
    by apply (proj1 Hnil Hcases).
  - assert (App.filter_excluded (App.excluded_tokens s) (sort df) ≠ []) as Hf.
    { intros Hf. unfold result, App.calculate_allocation in Hres.
      by rewrite Hf in Hres. }
    assert (top = n) as ->.
    { unfold result, App.calculate_allocation in Hres.
      destruct (App.filter_excluded _ (sort df)); [done|].
      destruct (App.head n _); [congruence|].
      by case_bool_decide. }
    split; [split; [done|]|].
    { intros Hall. exfalso. by apply Hf, Hnil. }
    split; [split; [intros _|done]|split; [done|done]].
    split; [|by apply Hsome]. by destruct (Hempty Hcases).
  - destruct Hcases as (Hne & _).
    split; [split; [done|]|].
    { intros Hall. exfalso. apply Hne. rewrite Hb.
      rewrite (proj2 Hnil Hall). apply take_nil. }
    split; [split; [done|]|split; [split; [done|]|done]].
    + intros [-> _]. exfalso. by apply Hne.
    + intros Hbasket. by exfalso.
  - destruct Hcases as (Hne & _).
    split; [split; [done|]|].
    { intros Hall. exfalso. apply Hne. rewrite Hb.
      rewrite (proj2 Hnil Hall). apply take_nil. }
    split; [split; [done|]|split; [split; [done|]|]].
    + intros [-> _]. exfalso. by apply Hne.
    + intros Hbasket. by exfalso.
    + intros Hbasket. by exfalso.
Qed.

Lemma empty_basket_reasons_witness :
  App.calculate_allocation stable_sort_by_rank sample_df
    (Qc_of_Z 100000) (Qc_of_Z 150) (Qc_of_Z 25) "usdt" 0
  = App.CouldNotSelect 0.
Proof.
  destruct (empty_basket_reasons stable_sort_by_rank sample_df
              (Qc_of_Z 100000) (Qc_of_Z 150) (Qc_of_Z 25) "usdt" 0
              stable_sort_sorts) as (_ & Hselect & _).
  apply Hselect. split; [done|].
  exists (sample_row "ETH" 2 500). split; [unfold sample_df; in_list|].
  vm_compute. intros H. discriminate H.
Defined.

(** ** The exclusion text *)

Lemma lower_lower_ascii c : App.lower_ascii (App.lower_ascii c) = App.lower_ascii c.
Proof. by destruct c as [[] [] [] [] [] [] [] []]. Qed.

Lemma is_space_lower_ascii c : App.is_space (App.lower_ascii c) = App.is_space c.
Proof. by destruct c as [[] [] [] [] [] [] [] []]. Qed.

Lemma is_space_upper_ascii c : App.is_space (App.upper_ascii c) = App.is_space c.
Proof. by destruct c as [[] [] [] [] [] [] [] []]. Qed.

Lemma comma_lower_ascii c : Ascii.eqb (App.lower_ascii c) "," = Ascii.eqb c ",".
Proof. by destruct c as [[] [] [] [] [] [] [] []]. Qed.

Lemma comma_upper_ascii c : Ascii.eqb (App.upper_ascii c) "," = Ascii.eqb c ",".
Proof. by destruct c as [[] [] [] [] [] [] [] []]. Qed.

Lemma lower_lower s : App.lower (App.lower s) = App.lower s.
Proof.
  induction s as [|c s IH]; [done|]. simpl. by rewrite IH, lower_lower_ascii.
Qed.

(** A map on characters that keeps blanks, commas and lower-case forms. *)
Section CaseMap.

Variable f : ascii → ascii.
Hypothesis f_space : ∀ c, App.is_space (f c) = App.is_space c.
Hypothesis f_comma : ∀ c, Ascii.eqb (f c) "," = Ascii.eqb c ",".
Hypothesis f_lower : ∀ c, App.lower_ascii (f c) = App.lower_ascii c.

#[local] Abbreviation map_string := (map_string f).

Lemma map_string_empty s : map_string s = EmptyString ↔ s = EmptyString.
Proof. by destruct s. Qed.

Lemma lstrip_map s : App.lstrip (map_string s) = map_string (App.lstrip s).
Proof.
  induction s as [|c s IH]; [done|]. simpl. rewrite f_space.
  by destruct (App.is_space c).
Qed.

Lemma rstrip_map s : App.rstrip (map_string s) = map_string (App.rstrip s).
Proof.
  induction s as [|c s IH]; [done|]. simpl. rewrite IH, f_space.
  destruct (App.rstrip s); simpl; [by destruct (App.is_space c)|done].
Qed.

Lemma strip_map s : App.strip (map_string s) = map_string (App.strip s).
Proof. unfold App.strip. by rewrite lstrip_map, rstrip_map. Qed.

Lemma lower_map s : App.lower (map_string s) = App.lower s.
Proof. induction s as [|c s IH]; [done|]. simpl. by rewrite IH, f_lower. Qed.

Lemma split_comma_map s :
  App.split_comma (map_string s) = map_string <$> App.split_comma s.
Proof.
  induction s as [|c s IH]; [done|]. simpl. rewrite f_comma, IH.
  destruct (Ascii.eqb c ","); [done|].
  by destruct (App.split_comma s).
Qed.

Lemma excluded_tokens_map s :
  App.excluded_tokens (map_string s) = App.excluded_tokens s.
Proof.
  unfold App.excluded_tokens. f_equal. f_equal.
  rewrite split_comma_map.
  induction (App.split_comma s) as [|t ts IH]; [done|].
  rewrite fmap_cons.
  destruct (decide (App.strip t = EmptyString)) as [Ht|Ht].
  - rewrite !filter_cons_False; [done| |].
    + by intros H; apply H.
    + intros H. apply H. rewrite strip_map. by apply map_string_empty.
  - rewrite !filter_cons_True; [|done|].
    + rewrite !fmap_cons, IH. f_equal. by rewrite strip_map, lower_map.
    + rewrite strip_map. by rewrite map_string_empty.
Qed.

End CaseMap.

Lemma map_string_lower s : map_string App.lower_ascii s = App.lower s.
Proof. induction s as [|c s IH]; [done|]. simpl. by rewrite IH. Qed.

Lemma map_string_upper s : map_string App.upper_ascii s = App.upper s.
Proof. induction s as [|c s IH]; [done|]. simpl. by rewrite IH. Qed.

Lemma lower_nonempty s : s ≠ EmptyString → App.lower s ≠ EmptyString.
Proof. by destruct s. Qed.

(** X14. The exclusion text is read without regard to letter case: typing
    it in upper or in lower case gives the same exclusion set. Every token
    of the set is non-empty and in lower case, so a record is excluded
    whenever its symbol matches a typed token up to case. *)
Theorem exclusion_text_ignores_case (s : string) :
  App.excluded_tokens (App.upper s) = App.excluded_tokens s
  ∧ App.excluded_tokens (App.lower s) = App.excluded_tokens s
  ∧ (∀ t, t ∈ App.excluded_tokens s → t ≠ EmptyString ∧ App.lower t = t)
  ∧ (∀ t, t ∈ App.split_comma s → App.strip t ≠ EmptyString →
       ∀ df symbol,
         App.lower symbol = App.lower (App.strip t) →
         ∀ r, r ∈ App.filter_excluded (App.excluded_tokens s) df →
              App.symbol r ≠ symbol).
Proof.
  split; [|split; [|split]].
  - rewrite <- map_string_upper.
    apply excluded_tokens_map;
      auto using is_space_upper_ascii, comma_upper_ascii, lower_upper_ascii.
  - rewrite <- map_string_lower.
    apply excluded_tokens_map;
      auto using is_space_lower_ascii, comma_lower_ascii, lower_lower_ascii.
  - intros t Ht. unfold App.excluded_tokens in Ht.
    apply elem_of_union in Ht as [Ht|Ht].
    + apply elem_of_list_to_set, list_elem_of_fmap in Ht as (u & -> & Hu).
      apply list_elem_of_filter in Hu as [Hu _].
      split; [by apply lower_nonempty|apply lower_lower].
    + apply elem_of_singleton in Ht as ->. done.
  - intros t Ht Hne df symbol Hsym r Hr Heq. subst symbol.
    unfold App.filter_excluded in Hr. apply list_elem_of_filter in Hr as [Hnot _].
    apply Hnot. rewrite Hsym. unfold App.excluded_tokens.
    apply elem_of_union_l, elem_of_list_to_set, list_elem_of_fmap.
    exists t. split; [done|]. by apply list_elem_of_filter.
Qed.

Lemma exclusion_text_ignores_case_witness :
  Forall (λ r, App.symbol r ≠ "USDT")
    (App.filter_excluded (App.excluded_tokens "Usdt , eth") sample_df).
Proof.
  destruct (exclusion_text_ignores_case "Usdt , eth") as (_ & _ & _ & H).
  apply Forall_forall. intros r Hr.
  apply (H "Usdt ") with (df := sample_df); [in_list|discriminate|reflexivity|exact Hr].
Defined.

(** ** The order of the fetched records *)

Lemma calculate_allocation_sorted sort df p b a s n :
  App.calculate_allocation sort df p b a s n
  = App.calculate_allocation (λ l, l) (sort df) p b a s n.
Proof. reflexivity. Qed.

(** X15. When the ranks are pairwise distinct, the result of the block
    does not depend on the order in which the records were fetched, nor on
    which sort meeting the contract of [sort_values] is used. *)
Theorem allocation_ignores_input_order
    (sort sort' : list App.row → list App.row) (df df' : list App.row)
    (p b a : Qc) (s : string) (n : nat) :
  App.sorts_by_rank sort → App.sorts_by_rank sort' →
  df ≡ₚ df' → NoDup (App.market_cap_rank <$> df) →
  App.calculate_allocation sort df p b a s n
  = App.calculate_allocation sort' df' p b a s n.
Proof.
  intros Hsort Hsort' Hperm Hnd.
  destruct (Hsort df) as [Hp Hs]. destruct (Hsort' df') as [Hp' Hs'].
  rewrite calculate_allocation_sorted, (calculate_allocation_sorted sort').
  f_equal. apply (sorted_by_rank_unique df); [done|done| |done|done].
  by rewrite Hperm.
Qed.

Lemma allocation_ignores_input_order_witness :
  App.calculate_allocation stable_sort_by_rank sample_df
    (Qc_of_Z 100000) (Qc_of_Z 150) (Qc_of_Z 25) "usdt" 3
  = App.calculate_allocation reversing_sort_by_rank (reverse sample_df)
      (Qc_of_Z 100000) (Qc_of_Z 150) (Qc_of_Z 25) "usdt" 3.
Proof.
  apply allocation_ignores_input_order.
  - exact stable_sort_sorts.
  - exact reversing_sort_sorts.
  - symmetry. apply reverse_Permutation.
  - simpl. repeat (constructor; [rewrite ?elem_of_cons, elem_of_nil; intuition lia|]).
    constructor.
Defined.

(** ** The CSV snapshot, further *)

Lemma last_four_mondays_spec (today : Z) :
  ∃ m : Z,
    Fetcher.last_four_mondays today = [m; m - 7; m - 14; m - 21]%Z
    ∧ (today - 6 ≤ m ≤ today)%Z
    ∧ (Fetcher.weekday today = 0%Z → m = today)
    ∧ Forall (λ d, Fetcher.weekday d = 0%Z ∧ (d ≤ today)%Z)
        (Fetcher.last_four_mondays today).
Proof.
  exists (today - Fetcher.weekday today)%Z.
  assert (Fetcher.last_four_mondays today
          = [today - Fetcher.weekday today; today - Fetcher.weekday today - 7;
             today - Fetcher.weekday today - 14;
             today - Fetcher.weekday today - 21]%Z) as Heq.
  { unfold Fetcher.last_four_mondays. simpl.
    set (m := (today - Fetcher.weekday today)%Z).
    replace (m - 7 - 7 - 7)%Z with (m - 21)%Z by lia.
    by replace (m - 7 - 7)%Z with (m - 14)%Z by lia. }
  split; [exact Heq|]. rewrite Heq. unfold Fetcher.weekday.
  split; [|split].
  - Z.div_mod_to_equations. lia.
  - intros ->. lia.
  - repeat constructor; Z.div_mod_to_equations; lia.
Qed.

(** X16. [last_four_mondays] yields four dates: the Monday on or before
    today (today itself on a Monday, never more than six days back) and the
    three Mondays before it, a week apart. *)
Theorem last_four_mondays_are_mondays (today : Z) :
  ∃ m : Z,
    Fetcher.last_four_mondays today = [m; m - 7; m - 14; m - 21]%Z
    ∧ (today - 6 ≤ m ≤ today)%Z
    ∧ (Fetcher.weekday today = 0%Z → m = today)
    ∧ Forall (λ d, Fetcher.weekday d = 0%Z ∧ (d ≤ today)%Z)
        (Fetcher.last_four_mondays today).
Proof. apply last_four_mondays_spec. Qed.

Lemma item_step_date day item r :
  Fetcher.item_step day item = inr (Fetcher.Append r) →
  Fetcher.snapshot_date r = day.
Proof.
  unfold Fetcher.item_step, mbind, Fetcher.exn_bind, Fetcher.item_get.
  destruct (item !! "rank") as [rk|]; [|done].
  destruct (Fetcher.gt_50 rk) as [|[]]; [done..|].
  destruct (item !! "symbol") as [sy|]; [|done].
  destruct (Fetcher.in_stables sy) as [|[]]; [done..|].
  destruct (item !! "quotes") as [quotes|]; [|done].
  destruct (Fetcher.subscript quotes "USD") as [|usd]; [done|].
  destruct (Fetcher.subscript usd "price") as [|price]; [done|].
  destruct (Fetcher.subscript usd "market_cap") as [|cap]; [done|].
  by intros [= <-].
Qed.

Lemma process_items_appends day items rows :
  ∃ new, (Fetcher.process_items day items rows).1 = rows ++ new
         ∧ Forall (λ r, Fetcher.snapshot_date r = day) new.
Proof.
  revert rows. induction items as [|item items IH]; intros rows.
  - exists []. by rewrite app_nil_r.
  - simpl. destruct (Fetcher.item_step day item) as [e|[| |r]] eqn:Hstep.
    + exists []. by rewrite app_nil_r.
    + exists []. by rewrite app_nil_r.
    + apply IH.
    + destruct (IH (rows ++ [r])) as (new & -> & Hnew).
      exists (r :: new). split; [by rewrite <- app_assoc|].
      constructor; [by eapply item_step_date|done].
Qed.

Lemma same_date_newest_first day (new : list Fetcher.row) :
  Forall (λ r, Fetcher.snapshot_date r = day) new →
  newest_first (Fetcher.snapshot_date <$> new).
Proof.
  induction 1 as [|r new Hr Hnew IHn]; [constructor|].
  rewrite fmap_cons. constructor; [exact IHn|].
  apply Forall_forall. intros d Hd.
  apply list_elem_of_fmap in Hd as (r' & -> & Hr').
  rewrite Hr, (proj1 (Forall_forall _ _) Hnew r' Hr'). lia.
Qed.

Lemma day_loop_appends api i days rows :
  ∃ new, (Fetcher.day_loop api i days rows).1 = rows ++ new
         ∧ Forall (λ r, Fetcher.snapshot_date r ∈ days) new
         ∧ (newest_first days → newest_first (Fetcher.snapshot_date <$> new)).
Proof.
  revert i rows. induction days as [|day days IH]; intros i rows.
  - exists []. rewrite app_nil_r. repeat split; constructor.
  - simpl. destruct (api i) as [items|].
    + destruct (process_items_appends day items rows) as (new1 & Hrows1 & Hnew1).
      destruct (Fetcher.process_items day items rows) as [rows1 [e|]];
        simpl in Hrows1; subst rows1.
      * exists new1. split; [done|]. split.
        -- eapply Forall_impl; [exact Hnew1|]. intros r ->. apply list_elem_of_here.
        -- intros _. by apply (same_date_newest_first day).
      * destruct (IH (S i) (rows ++ new1)) as (new2 & -> & Hnew2 & Hsorted).
        exists (new1 ++ new2). split; [by rewrite app_assoc|]. split.
        -- apply Forall_app. split.
           ++ eapply Forall_impl; [exact Hnew1|]. intros r ->.
              apply list_elem_of_here.
           ++ eapply Forall_impl; [exact Hnew2|]. intros r Hr.
              by apply list_elem_of_further.
        -- intros Hdays. apply StronglySorted_cons in Hdays as [Hday Hdays].
           rewrite fmap_app. apply StronglySorted_app_2; [| |by apply Hsorted].
           ++ intros x1 x2 Hx1 Hx2.
              apply list_elem_of_fmap in Hx1 as (r1 & -> & Hr1).
              apply list_elem_of_fmap in Hx2 as (r2 & -> & Hr2).
              rewrite (proj1 (Forall_forall _ _) Hnew1 r1 Hr1).
              apply (proj1 (Forall_forall _ _) Hday).
              by apply (proj1 (Forall_forall _ _) Hnew2).
           ++ by apply (same_date_newest_first day).
    + exists []. rewrite app_nil_r. repeat split; constructor.
Qed.

(** X17. Every row of the snapshot is dated with one of the four Mondays
    (so with a Monday not after today), and the rows come grouped by date,
    the latest Monday first. *)
Theorem snapshot_rows_are_dated_by_monday (api : nat → response) (today : Z) :
  let rows := (Fetcher.main api today).1 in
  Forall (λ r, Fetcher.snapshot_date r ∈ Fetcher.last_four_mondays today
               ∧ Fetcher.weekday (Fetcher.snapshot_date r) = 0%Z
               ∧ (Fetcher.snapshot_date r ≤ today)%Z) rows
  ∧ newest_first (Fetcher.snapshot_date <$> rows).
Proof.
  unfold Fetcher.main.
  destruct (day_loop_appends api 0 (Fetcher.last_four_mondays today) [])
    as (new & Hrows & Hnew & Hsorted).
  cbn zeta. rewrite Hrows. change ([] ++ new) with new.
  destruct (last_four_mondays_spec today) as (m & Hm & _ & _ & Hmon).
  split.
  - eapply Forall_impl; [exact Hnew|]. intros r Hr. split; [done|].
    by apply (proj1 (Forall_forall _ _) Hmon).
  - apply Hsorted. rewrite Hm. unfold newest_first.
    repeat (constructor; [|repeat constructor; lia]). constructor.
Qed.

Lemma item_step_well_formed day item :
  well_formed item → ∃ st, Fetcher.item_step day item = inr st.
Proof.
  intros (q & sym & quotes & usd & price & cap & Hr & Hs & Hq & Hu & Hp & Hc).
  unfold Fetcher.item_step, mbind, Fetcher.exn_bind, Fetcher.item_get.
  rewrite Hr. simpl. case_bool_decide; [by eexists|].
  rewrite Hs. simpl. case_bool_decide; [by eexists|].
  rewrite Hq. simpl. unfold Fetcher.item_get. rewrite Hu. simpl.
  unfold Fetcher.item_get. rewrite Hp, Hc. by eexists.
Qed.

Lemma process_items_well_formed day items rows :
  Forall well_formed items → (Fetcher.process_items day items rows).2 = None.
Proof.
  intros Hitems. revert rows.
  induction Hitems as [|item items Hitem Hitems IH]; intros rows; [done|].
  simpl. destruct (item_step_well_formed day item Hitem) as ([| |r] & ->); auto.
Qed.

Lemma day_loop_well_formed api i days rows :
  (∀ j, i ≤ j < i + length days →
        ∃ items, api j = Ok items ∧ Forall well_formed items) →
  (Fetcher.day_loop api i days rows).2 = None.
Proof.
  revert i rows. induction days as [|day days IH]; intros i rows Hapi; [done|].
  simpl. destruct (Hapi i) as (items & -> & Hitems); [simpl; lia|].
  pose proof (process_items_well_formed day items rows Hitems) as Hnone.
  destruct (Fetcher.process_items day items rows) as [rows' st].
  simpl in Hnone. subst st. apply IH. intros j Hj. apply Hapi. simpl. lia.
Qed.

(** X18. If each of the four requests succeeds and every item of every
    response is a well-formed ticker, the run raises nothing: it reaches the
    end and the collected rows are written. *)
Theorem well_formed_responses_never_raise (api : nat → response) (today : Z) :
  (∀ i, i < 4 → ∃ items, api i = Ok items ∧ Forall well_formed items) →
  (Fetcher.main api today).2 = None.
Proof.
  intros Hapi. unfold Fetcher.main. apply day_loop_well_formed.
  intros j Hj. apply Hapi. simpl in Hj. lia.
Qed.

Lemma ticker_well_formed rank symbol price cap :
  well_formed (ticker rank symbol price cap).
Proof. by eexists _, _, _, _, _, _. Qed.

Lemma well_formed_responses_never_raise_witness :
  (Fetcher.main (λ _, Ok [ticker 1 "BTC" 5 9; ticker 2 "USDT" 1 1]) 739924).2 = None.
Proof.
  apply well_formed_responses_never_raise.
  intros i _. eexists. split; [reflexivity|].
  repeat constructor; apply ticker_well_formed.
Defined.

(** X19. The item loop reads a field only when it needs it. An item without
    [rank] raises [KeyError]; an item whose rank is null or text raises
    [TypeError]. An item ranked above 50 ends the loop and a stablecoin is
    skipped whatever else they hold or lack, so missing quotes raise nothing
    there; an item that is kept and has no [quotes] raises [KeyError]. *)
Theorem item_fields_are_read_lazily (day : Z) (item : gmap string json) :
  (item !! "rank" = None → Fetcher.item_step day item = inl (Fetcher.KeyError "rank"))
  ∧ (∀ v, item !! "rank" = Some v → (v = JNull ∨ ∃ t, v = JStr t) →
       Fetcher.item_step day item = inl Fetcher.TypeError)
  ∧ (∀ q, item !! "rank" = Some (JNum q) → (Qc_of_Z 50 < q)%Qc →
       Fetcher.item_step day item = inr Fetcher.Break)
  ∧ (∀ q sym,
       item !! "rank" = Some (JNum q) → (q ≤ Qc_of_Z 50)%Qc →
       item !! "symbol" = Some (JStr sym) →
       (sym ∈ Fetcher.EXCLUDE_STABLES →
        Fetcher.item_step day item = inr Fetcher.Continue)
       ∧ (sym ∉ Fetcher.EXCLUDE_STABLES → item !! "quotes" = None →
          Fetcher.item_step day item = inl (Fetcher.KeyError "quotes"))).
Proof.
  unfold Fetcher.item_step, mbind, Fetcher.exn_bind, Fetcher.item_get.
  split; [by intros ->|]. split; [|split].
  - intros v -> [->|[t ->]]; done.
  - intros q -> Hq. simpl. by rewrite bool_decide_true.
  - intros q sym -> Hq ->. simpl.
    rewrite bool_decide_false by (by apply Qcle_ngt). split.
    + intros Hsym. by rewrite bool_decide_true.
    + intros Hsym ->. by rewrite bool_decide_false.
Qed.

Lemma item_fields_are_read_lazily_witness :
  Fetcher.item_step 0 {[ "rank" := JNum (Qc_of_Z 51) ]} = inr Fetcher.Break
  ∧ Fetcher.item_step 0
      (<["rank" := JNum (Qc_of_Z 3)]> {[ "symbol" := JStr "DAI" ]})
    = inr Fetcher.Continue.
Proof.
  split.
  - destruct (item_fields_are_read_lazily 0 {[ "rank" := JNum (Qc_of_Z 51) ]})
      as (_ & _ & H & _).
    apply (H (Qc_of_Z 51)); reflexivity.
  - destruct (item_fields_are_read_lazily 0
                (<["rank" := JNum (Qc_of_Z 3)]> {[ "symbol" := JStr "DAI" ]}))
      as (_ & _ & _ & H).
    destruct (H (Qc_of_Z 3) "DAI") as [Hskip _]; [reflexivity|discriminate|reflexivity|].
    apply Hskip. vm_compute. reflexivity.
Defined.

Lemma process_items_app_normal day pre rest rows :
  Forall (λ item, ∃ st, Fetcher.item_step day item = inr st ∧ st ≠ Fetcher.Break) pre →
  Fetcher.process_items day (pre ++ rest) rows
  = Fetcher.process_items day rest (Fetcher.process_items day pre rows).1.
Proof.
  intros Hpre. revert rows.
  induction Hpre as [|item pre (st & Hst & Hne) Hpre IH]; intros rows; [done|].
  simpl. rewrite Hst. destruct st as [| |r]; [done|apply IH..].
Qed.

(** X20. An exception ends the run where it happens. If the items before
    a bad item were all processed (kept or skipped), the rows collected from
    them stay in the list, the bad item's exception is the result, and the
    items after it are never processed. If the request for some day fails,
    the run ends with the HTTP error and every row collected is dated with
    an earlier day of the list. *)
Theorem an_exception_ends_the_run :
  (∀ day pre bad post rows e,
     Forall (λ item, ∃ st, Fetcher.item_step day item = inr st
                           ∧ st ≠ Fetcher.Break) pre →
     Fetcher.item_step day bad = inl e →
     Fetcher.process_items day (pre ++ bad :: post) rows
     = ((Fetcher.process_items day pre rows).1, Some e)) ∧
  (∀ api today i,
     i < 4 →
     (∀ j, j < i → ∃ items, api j = Ok items ∧ Forall well_formed items) →
     api i = RequestException →
     (Fetcher.main api today).2 = Some Fetcher.HTTPError
     ∧ Forall (λ r, Fetcher.snapshot_date r
                    ∈ take i (Fetcher.last_four_mondays today))
         (Fetcher.main api today).1).
Proof.
  split.
  - intros day pre bad post rows e Hpre Hbad.
    rewrite process_items_app_normal by done. simpl. by rewrite Hbad.
  - intros api today i Hi Hok Hfail. unfold Fetcher.main.
    assert (∀ days k rows,
      k + length days = 4 → k ≤ i →
      (Fetcher.day_loop api k days rows).2 = Some Fetcher.HTTPError
      ∧ ∃ new, (Fetcher.day_loop api k days rows).1 = rows ++ new
               ∧ Forall (λ r, Fetcher.snapshot_date r ∈ take (i - k) days) new)
      as Hloop.
    { induction days as [|day days IH]; intros k rows Hlen Hk.
      - simpl in Hlen. lia.
      - simpl. destruct (decide (k = i)) as [->|Hne].
        + rewrite Hfail. split; [done|]. exists []. by rewrite app_nil_r.
        + destruct (Hok k) as (items & -> & Hitems); [lia|].
          pose proof (process_items_well_formed day items rows Hitems) as Hnone.
          destruct (process_items_appends day items rows) as (new1 & Hrows1 & Hnew1).
          destruct (Fetcher.process_items day items rows) as [rows1 st].
          simpl in Hnone, Hrows1. subst st rows1.
          destruct (IH (S k) (rows ++ new1)) as (Hst & new2 & Hrows2 & Hnew2);
            [simpl in Hlen; lia|lia|].
          split; [done|]. exists (new1 ++ new2).
          split; [by rewrite Hrows2, app_assoc|].
          replace (i - k) with (S (i - S k)) by lia. simpl.
          apply Forall_app. split.
          * eapply Forall_impl; [exact Hnew1|]. intros r ->.
            apply list_elem_of_here.
          * eapply Forall_impl; [exact Hnew2|]. intros r Hr.
            by apply list_elem_of_further. }
    destruct (Hloop (Fetcher.last_four_mondays today) 0 [])
      as (Hst & new & Hrows & Hnew); [done|lia|].
    split; [exact Hst|]. rewrite Hrows. simpl. by rewrite Nat.sub_0_r in Hnew.
Qed.

Lemma an_exception_ends_the_run_witness :
  (Fetcher.main
     (λ i, if i =? 1 then RequestException else Ok [ticker 1 "BTC" 5 9]) 739924).2
  = Some Fetcher.HTTPError.
Proof.
  destruct an_exception_ends_the_run as [_ H].
  destruct (H (λ i, if i =? 1 then RequestException else Ok [ticker 1 "BTC" 5 9])
              739924%Z 1) as [Hst _].
  - lia.
  - intros j Hj. assert (j = 0) as -> by lia. eexists. split; [reflexivity|].
    repeat constructor. apply ticker_well_formed.
  - reflexivity.
  - exact Hst.
Defined.

(** ** Fetched, but nothing valid *)

(** X21. [app.py] tells an empty upstream from a useless one: when records
    were fetched and none of them is valid, [fetch_market_data] returns the
    empty list, not [None], and reports no error; every fetched record is
    in the skip log. *)
Theorem all_invalid_returns_empty_list (c : client) (pages retries : nat)
    (delay : Qc) (all_coins : list (gmap string json)) (tr : trace) :
  App.fetch_pages c pages retries delay = (Normal all_coins, tr) →
  all_coins ≠ [] →
  Forall (λ coin, valid coin = false) all_coins →
  App.fetch_market_data c pages retries delay = (Return (Some []), tr)
  ∧ length (App.normalize all_coins).2 = length all_coins.
Proof.
  intros Hrun Hne Hinvalid.
  assert ((App.normalize all_coins).1 = []) as Hnone.
  { rewrite normalize_valid, filter_none; [done|]. intros coin Hcoin.
    rewrite (proj1 (Forall_forall _ _) Hinvalid coin Hcoin). done. }
  split.
  - rewrite (fetch_market_data_normalizes _ _ _ _ _ _ Hrun Hne). by rewrite Hnone.
  - pose proof (normalize_lengths all_coins) as Hlen.
    rewrite Hnone in Hlen. exact Hlen.
Qed.

Lemma all_invalid_returns_empty_list_witness :
  (App.fetch_market_data (scripted_client (λ _, [no_cap])) 1 3 five).1
  = Return (Some []).
Proof.
  destruct (all_invalid_returns_empty_list (scripted_client (λ _, [no_cap])) 1 3 five
              [no_cap]
              (App.fetch_pages (scripted_client (λ _, [no_cap])) 1 3 five).2)
    as [Hres _].
  - reflexivity.
  - discriminate.
  - repeat constructor.
  - by rewrite Hres.
Defined.

Lemma last_four_mondays_are_mondays_witness :
  Fetcher.last_four_mondays 739922 = [739922; 739915; 739908; 739901]%Z.
Proof.
  destruct (last_four_mondays_are_mondays 739922) as (m & Heq & _ & Hmonday & _).
  rewrite Heq, (Hmonday eq_refl). reflexivity.
Defined.
